(** * keephy_translations: translation entries, glossary terms and the
      i18n routes, as a shallow embedding.

    Sources embedded here:
    - [src/models/Glossary.js]    (module [Glossary])
    - [src/models/Translation.js] (module [Translation])
    - [src/index.js]              (module [Routes])

    Conventions.
    - A Mongo collection is a [list] of documents in natural (insertion)
      order; the unique compound index is the predicate [unique_index].
    - [new Date()] is a parameter [now : nat] of the operation that calls it.
    - JS objects built as dictionaries ([result[locale] = ...]) are [gmap]s
      of their own properties, written through [js_set], which gives the
      name [__proto__] its JS meaning; the arrays produced by [$addToSet]
      and [$setDifference], whose order MongoDB leaves unspecified, are
      [gset]s.
    - Mongoose is taken with its version 6+ defaults: a plain update object is
      applied as [$set], keys whose value is [undefined] are dropped from the
      update, schema defaults are applied when an upsert inserts, and
      [findOneAndUpdate]/[updateMany] run neither validators nor
      [pre('save')] hooks.
    - A JS string is the sequence of its code units, one character of the
      model per code unit, so that [String.length] is [.length].
    - [document.save()] validates the whole document against the schema
      before the [pre('save')] hook runs, and stores nothing when the
      validation fails. *)

From Stdlib Require Import Ascii.
From stdpp Require Import gmap strings list fin_maps sorting.

Local Open Scope string_scope.
Local Open Scope list_scope.
Local Open Scope nat_scope.

(** JS [===] on strings. *)
Infix "===" := String.eqb (at level 70, no associativity).

(** Mongo [{ field: { $in: xs } }] on a string field. *)
Definition inb (x : string) (xs : list string) : bool :=
  existsb (String.eqb x) xs.

(* ===================================================================== *)
(** ** src/models/Glossary.js *)
(* ===================================================================== *)

Module Glossary.

(** One element of the [translations] array of the schema. *)
Record translation := mkTranslation {
  locale : string;
  value : string;
  context : string;
  isPreferred : bool
}.

(** A glossary document. [businessId], [metadata.tags], [metadata.notes]
    and [createdAt] are never read or written by the methods below and are
    left out; the [metadata] sub-document is flattened. [usageCount] is a
    JS Number holding a count; its arithmetic is [js_succ]. *)
Record t := mkGlossary {
  tenantId : string;
  term : string;
  translations : list translation;
  category : string;
  createdBy : string;
  lastUsed : option nat;
  usageCount : nat;
  isActive : bool;
  updatedAt : nat
}.

Definition with_translations (ts : list translation) (g : t) : t :=
  {| tenantId := tenantId g; term := term g; translations := ts;
     category := category g; createdBy := createdBy g;
     lastUsed := lastUsed g; usageCount := usageCount g;
     isActive := isActive g; updatedAt := updatedAt g |}.

(** [glossarySchema.pre('save')]: [this.updatedAt = new Date()]. *)
Definition pre_save (now : nat) (g : t) : t :=
  {| tenantId := tenantId g; term := term g; translations := translations g;
     category := category g; createdBy := createdBy g;
     lastUsed := lastUsed g; usageCount := usageCount g;
     isActive := isActive g; updatedAt := now |}.

(** [methods.getTranslation(locale)]. [Array.prototype.find] is
    [List.find]: the first element satisfying the predicate. The test
    [if (translation)] is on the found element (an object, always
    truthy), not on its value. *)
Definition getTranslation (g : t) (loc : string) : string :=
  match List.find (λ t, locale t === loc) (translations g) with
  | Some translation => value translation
  | None =>
      match List.find (λ t, isPreferred t) (translations g) with
      | Some preferred => value preferred
      | None =>
          match translations g with
          | first :: _ => value first
          | [] => term g
          end
      end
  end.

(** The [forEach] of [addTranslation]:
    [if (t.locale !== locale) t.isPreferred = false]. *)
Definition unmark_unless (loc : string) (t : translation) : translation :=
  if negb (locale t === loc)
  then {| locale := locale t; value := value t; context := context t;
          isPreferred := false |}
  else t.

(** The array after [filter], [push] and the conditional [forEach]. *)
Definition addTranslation_list (loc val ctx : string) (pref : bool)
    (ts : list translation) : list translation :=
  let kept := List.filter (λ t, negb (locale t === loc)) ts in
  let pushed := kept ++ [mkTranslation loc val ctx pref] in
  if pref then map (unmark_unless loc) pushed else pushed.

(** [methods.addTranslation(locale, value, context = '', isPreferred = false)],
    ending in [this.save()]. The two defaulted parameters are [option]s. *)
Definition addTranslation (loc val : string) (ctx : option string)
    (pref : option bool) (now : nat) (g : t) : t :=
  pre_save now
    (with_translations
       (addTranslation_list loc val (default "" ctx) (default false pref)
          (translations g)) g).

(** [n + 1] on a JS Number that holds the integer [n]. Below 2^53 the sum
    is exact. From 2^53 on the Numbers are the multiples of 2 (of 4 from
    2^54 on) and the sum is rounded to the nearest of them, the one with
    the even significand when both are as near: 2^53 + 1 is 2^53, and
    2^53 + 2 gives 2^53 + 4. *)
Definition js_succ (n : nat) : nat :=
  let m := N.of_nat n in
  if (m <? 2 ^ 53)%N then n + 1
  else if (m <? 2 ^ 54)%N && (m mod 4 =? 2)%N then n + 2
  else n.

(** [methods.incrementUsage()]: [this.metadata.usageCount += 1]. *)
Definition incrementUsage (now : nat) (g : t) : t :=
  pre_save now
    {| tenantId := tenantId g; term := term g;
       translations := translations g; category := category g;
       createdBy := createdBy g; lastUsed := Some now;
       usageCount := js_succ (usageCount g);
       isActive := isActive g; updatedAt := updatedAt g |}.

(** The invariant of the data model on the [translations] array. *)
Definition at_most_one_preferred (ts : list translation) : Prop :=
  List.length (List.filter (λ t, isPreferred t) ts) ≤ 1.

Definition one_per_locale (ts : list translation) : Prop :=
  NoDup (map locale ts).

(** The two mutating methods, as calls on one document. *)
Inductive method :=
| AddTranslation (loc val : string) (ctx : option string) (pref : option bool)
| IncrementUsage.

Definition call (m : method) (now : nat) (g : t) : t :=
  match m with
  | AddTranslation loc val ctx pref => addTranslation loc val ctx pref now g
  | IncrementUsage => incrementUsage now g
  end.

Definition is_increment (m : method) : bool :=
  match m with IncrementUsage => true | AddTranslation _ _ _ _ => false end.

(** [statics.getTenantGlossary(tenantId, locale)]:
    [find({ tenantId, isActive: true }).select('term translations')]; the
    [locale] parameter is not used. *)
Definition getTenantGlossary (tenantId_ : string) (locale_ : string)
    (db : list t) : list (string * list translation) :=
  map (λ g, (term g, translations g))
    (List.filter (λ g, (tenantId g === tenantId_) && isActive g) db).

End Glossary.

(* ===================================================================== *)
(** ** src/models/Translation.js *)
(* ===================================================================== *)

Module Translation.

(** One element of the [variables] array. *)
Record variable := mkVariable {
  name : string;
  type : string;
  required : bool;
  description : string
}.

(** The [metadata] sub-document. [confidence] (a Number, default 1) is
    never read or written by any operation and is left out. *)
Record Metadata := mkMetadata {
  createdBy : string;
  reviewedBy : option string;
  reviewedAt : option nat;
  publishedAt : option nat;
  source : string;
  tags : list string;
  notes : option string
}.

(** A translation document. [status] is the stored string: updates made
    through [findOneAndUpdate] and [updateMany] are not validated against
    the schema's [enum]. *)
Record t := mkDoc {
  namespace : string;
  key : string;
  locale : string;
  value : string;
  context : option string;
  status : string;
  metadata : Metadata;
  variables : list variable;
  isActive : bool;
  createdAt : nat;
  updatedAt : nat
}.

#[global] Instance variable_eq_dec : EqDecision variable.
Proof. solve_decision. Defined.
#[global] Instance Metadata_eq_dec : EqDecision Metadata.
Proof. solve_decision. Defined.
#[global] Instance t_eq_dec : EqDecision t.
Proof. solve_decision. Defined.

(** Field assignments. *)
Definition set_createdBy (by_ : string) (m : Metadata) : Metadata :=
  {| createdBy := by_; reviewedBy := reviewedBy m;
     reviewedAt := reviewedAt m; publishedAt := publishedAt m;
     source := source m; tags := tags m; notes := notes m |}.

Definition set_publishedAt (at_ : nat) (m : Metadata) : Metadata :=
  {| createdBy := createdBy m; reviewedBy := reviewedBy m;
     reviewedAt := reviewedAt m; publishedAt := Some at_;
     source := source m; tags := tags m; notes := notes m |}.

Definition set_reviewed (by_ : string) (at_ : nat) (m : Metadata) : Metadata :=
  {| createdBy := createdBy m; reviewedBy := Some by_;
     reviewedAt := Some at_; publishedAt := publishedAt m;
     source := source m; tags := tags m; notes := notes m |}.

Definition set_metadata (m : Metadata) (d : t) : t :=
  {| namespace := namespace d; key := key d; locale := locale d;
     value := value d; context := context d; status := status d;
     metadata := m; variables := variables d; isActive := isActive d;
     createdAt := createdAt d; updatedAt := updatedAt d |}.

Definition set_status (s : string) (d : t) : t :=
  {| namespace := namespace d; key := key d; locale := locale d;
     value := value d; context := context d; status := s;
     metadata := metadata d; variables := variables d;
     isActive := isActive d;
     createdAt := createdAt d; updatedAt := updatedAt d |}.

Definition set_isActive (b : bool) (d : t) : t :=
  {| namespace := namespace d; key := key d; locale := locale d;
     value := value d; context := context d; status := status d;
     metadata := metadata d; variables := variables d; isActive := b;
     createdAt := createdAt d; updatedAt := updatedAt d |}.

Definition set_updatedAt (now : nat) (d : t) : t :=
  {| namespace := namespace d; key := key d; locale := locale d;
     value := value d; context := context d; status := status d;
     metadata := metadata d; variables := variables d;
     isActive := isActive d;
     createdAt := createdAt d; updatedAt := now |}.

(** JS truthiness of an optional [Date]: a stored [Date] object is
    truthy, [undefined] is not. *)
Definition truthy {A} (o : option A) : bool :=
  match o with Some _ => true | None => false end.

(** [translationSchema.pre('save')]. *)
Definition pre_save (now : nat) (d : t) : t :=
  let d1 := set_updatedAt now d in
  if (status d1 === "published") && negb (truthy (publishedAt (metadata d1)))
  then set_metadata (set_publishedAt now (metadata d1)) d1
  else d1.

(** The validators of the schema. [required: true] on a [String] rejects
    the empty string; [maxlength] bounds [.length]; [enum] lists the values
    allowed. *)
Definition required_ (s : string) : bool := negb (s === "").

Definition maxlength (n : nat) (s : string) : bool := String.length s <=? n.

Definition namespace_enum : list string :=
  ["ui"; "emails"; "notifications"; "reports"; "forms"; "errors"; "validation"].

Definition status_enum : list string :=
  ["draft"; "reviewed"; "published"; "archived"].

Definition source_enum : list string := ["manual"; "machine"; "import"; "api"].

Definition variable_type_enum : list string :=
  ["string"; "number"; "date"; "currency"; "plural"].

(** Validation of a whole document, path by path in the order of the
    schema. ([metadata.confidence] is left out of the record; no operation
    writes it.) *)
Definition validate (d : t) : bool :=
  required_ (namespace d) && inb (namespace d) namespace_enum
  && required_ (key d) && maxlength 200 (key d)
  && required_ (locale d) && maxlength 10 (locale d)
  && required_ (value d) && maxlength 2000 (value d)
  && match context d with Some c => maxlength 500 c | None => true end
  && inb (status d) status_enum
  && required_ (createdBy (metadata d))
  && inb (source (metadata d)) source_enum
  && forallb (λ v, inb (type v) variable_type_enum) (variables d).

(** [this.save()]: the stored document when the validation passes, after
    the [pre('save')] hook; [None] when the promise is rejected with a
    [ValidationError], in which case the stored document is left as it
    was. *)
Definition save (now : nat) (d : t) : option t :=
  if validate d then Some (pre_save now d) else None.

(** [methods.publish()]. *)
Definition publish (now : nat) (d : t) : option t :=
  let d1 := set_status "published" d in
  let d2 := set_metadata (set_publishedAt now (metadata d1)) d1 in
  save now d2.

(** [methods.archive()]. *)
Definition archive (now : nat) (d : t) : option t :=
  let d1 := set_status "archived" d in
  let d2 := set_isActive false d1 in
  save now d2.

(** [methods.review(reviewedBy)]. *)
Definition review (reviewedBy_ : string) (now : nat) (d : t) : option t :=
  let d1 := set_status "reviewed" d in
  let d2 := set_metadata (set_reviewed reviewedBy_ now (metadata d1)) d1 in
  save now d2.

(** Projections of [.select(...).lean()]. *)
Record bundle_row := mkBundleRow {
  b_key : string;
  b_value : string;
  b_variables : list variable
}.

Record bundles_row := mkBundlesRow {
  bs_namespace : string;
  bs_key : string;
  bs_locale : string;
  bs_value : string;
  bs_variables : list variable
}.

Definition select_bundle (d : t) : bundle_row :=
  mkBundleRow (key d) (value d) (variables d).

Definition select_bundles (d : t) : bundles_row :=
  mkBundlesRow (namespace d) (key d) (locale d) (value d) (variables d).

(** [statics.getBundle(namespace, locale, status = 'published')]. *)
Definition getBundle_filter (ns loc st : string) (d : t) : bool :=
  (namespace d === ns) && (locale d === loc) && (status d === st)
  && isActive d.

Definition getBundle (ns loc : string) (st : option string)
    (db : list t) : list bundle_row :=
  map select_bundle
    (List.filter (getBundle_filter ns loc (default "published" st)) db).

(** [statics.getBundles(namespaces, locales, status = 'published')]. *)
Definition getBundles_filter (nss locs : list string) (st : string)
    (d : t) : bool :=
  inb (namespace d) nss && inb (locale d) locs && (status d === st)
  && isActive d.

Definition getBundles (nss locs : list string) (st : option string)
    (db : list t) : list bundles_row :=
  map select_bundles
    (List.filter (getBundles_filter nss locs (default "published" st)) db).

(** [statics.getMissingKeys(namespace, locales)], stage by stage. *)









(** [statics.getTranslationStats(namespace, locale)]:
    [$match: { namespace, locale, isActive: true }], then
    [$group: { _id: '$status', count: { $sum: 1 } }]. The rows, one per
    status seen, are the entries of the map. *)
Definition stats_match (ns loc : string) (d : t) : bool :=
  (namespace d === ns) && (locale d === loc) && isActive d.

Definition count_by_status (docs : list t) : gmap string nat :=
  foldr (λ d acc, <[status d := S (default 0 (acc !! status d))]> acc) ∅ docs.

Definition getTranslationStats (ns loc : string) (db : list t)
    : gmap string nat :=
  count_by_status (List.filter (stats_match ns loc) db).

(** The document methods, as calls on one document. *)
Inductive method :=
| Publish
| Archive
| Review (reviewedBy_ : string).

Definition call (m : method) (now : nat) (d : t) : option t :=
  match m with
  | Publish => publish now d
  | Archive => archive now d
  | Review reviewedBy_ => review reviewedBy_ now d
  end.

(** The stored document after a call: the saved one, or the one that was
    there when [save()] is rejected. *)
Definition stored_after (m : method) (now : nat) (d : t) : t :=
  default d (call m now d).

End Translation.

(* ===================================================================== *)
(** ** src/index.js: the i18n routes over the [Translation] collection *)
(* ===================================================================== *)

Module Routes.
Import Translation.

(** The fields of the unique compound index
    [{ namespace: 1, key: 1, locale: 1 }]. *)
Definition ident (d : t) : string * string * string :=
  (namespace d, key d, locale d).

Definition unique_index (db : list t) : Prop := NoDup (map ident db).

(** The query [{ namespace, key, locale }]. *)
Definition by_ident (ns k l : string) (d : t) : bool :=
  (namespace d === ns) && (key d === k) && (locale d === l).

(** [Model.findOne(filter)]: the first match in natural order. *)
Definition findOne (f : t → bool) (db : list t) : option t := List.find f db.

(** [Model.findOneAndUpdate(filter, update, { new: true })]: the first
    match is updated in place and returned; [None] is JS [null]. *)
Fixpoint findOneAndUpdate (f : t → bool) (u : t → t) (db : list t)
    : list t * option t :=
  match db with
  | [] => ([], None)
  | d :: rest =>
      if f d then (u d :: rest, Some (u d))
      else let '(rest', r) := findOneAndUpdate f u rest in (d :: rest', r)
  end.

(** What [findOneAndUpdate] can do to the document at one position. *)
Definition updated_by (f : t → bool) (u : t → t) (d d' : t) : Prop :=
  d' = d ∨ (f d = true ∧ d' = u d).

(** [Model.updateMany(filter, update)]: every match is updated;
    [modifiedCount] counts the matches the update really changed. *)
Definition updateMany (f : t → bool) (u : t → t) (db : list t)
    : list t * nat :=
  (map (λ d, if f d then u d else d) db,
   List.length (List.filter (λ d, f d && bool_decide (u d ≠ d)) db)).

(** *** POST /api/i18n/keys *)

(** The update object of the route, applied to an existing document.
    [context] is [undefined] when the body has none, and is then not
    written; [updatedAt] is maintained by [timestamps: true]. *)
Definition upsert_update (ns k l v : string) (ctx : option string)
    (vars : list variable) (by_ : string) (now : nat) (d : t) : t :=
  {| namespace := ns; key := k; locale := l; value := v;
     context := match ctx with Some c => Some c | None => context d end;
     status := "draft";
     metadata := set_createdBy by_ (metadata d);
     variables := vars;
     isActive := isActive d;
     createdAt := createdAt d; updatedAt := now |}.

(** The document inserted when nothing matches: the filter and the update
    fields, completed by the schema defaults. *)
Definition upsert_insert (ns k l v : string) (ctx : option string)
    (vars : list variable) (by_ : string) (now : nat) : t :=
  {| namespace := ns; key := k; locale := l; value := v;
     context := ctx;
     status := "draft";
     metadata := {| createdBy := by_; reviewedBy := None; reviewedAt := None;
                    publishedAt := None; source := "manual"; tags := [];
                    notes := None |};
     variables := vars;
     isActive := true;
     createdAt := now; updatedAt := now |}.

(** One iteration of the route's loop:
    [findOneAndUpdate({namespace,key,locale}, {...}, {upsert: true, new: true})]. *)
Definition upsert (ns k l v : string) (ctx : option string)
    (vars : list variable) (by_ : string) (now : nat) (db : list t)
    : list t * t :=
  match findOneAndUpdate (by_ident ns k l)
          (upsert_update ns k l v ctx vars by_ now) db with
  | (db', Some d') => (db', d')
  | (_, None) =>
      let d' := upsert_insert ns k l v ctx vars by_ now in (db ++ [d'], d')
  end.

(** The route: [for (const [locale, value] of Object.entries(translations))],
    with the body defaults [variables = []] and [createdBy = 'system'].
    The list [translations] is the array [Object.entries] returns, in its
    order: every own property name of the object once, the integer-like
    names first in ascending order, then the other names in the order of
    their creation. It is not the order in which the request body lists
    them. The whole request is given one clock reading. *)
Definition postKeys (ns k : string) (translations : list (string * string))
    (ctx : option string) (vars : option (list variable))
    (createdBy_ : option string) (now : nat) (db : list t)
    : list t * list t :=
  foldl (λ acc lv,
           let '(db', d) := upsert ns k lv.1 lv.2 ctx (default [] vars)
                              (default "system" createdBy_) now acc.1 in
           (db', acc.2 ++ [d]))
    (db, []) translations.

(** *** Answer objects *)

(** [o[name] = v] on an object created by [{}], as far as its own
    properties go, which are what [res.json] prints. The name [__proto__]
    reaches the accessor of [Object.prototype]: an object value becomes the
    prototype of [o], any other value is ignored, and in both cases [o]
    gets no own property. A later [o['__proto__'][k] = w] then writes into
    that prototype, not into [o]. *)
Definition js_set {V} (name : string) (v : V) (o : gmap string V)
    : gmap string V :=
  if name === "__proto__" then o else <[name := v]> o.

(** *** GET /api/i18n/:namespace/:key *)

Record entry_view := mkEntryView {
  e_value : string;
  e_context : option string;
  e_status : string;
  e_variables : list variable
}.

Definition view (d : t) : entry_view :=
  mkEntryView (value d) (context d) (status d) (variables d).

Definition getEntry_filter (ns k : string) (localeArray : list string)
    (d : t) : bool :=
  (namespace d === ns) && (key d === k) && inb (locale d) localeArray
  && isActive d.

(** [.sort({ locale: 1 })]. *)
Definition locale_le (d1 d2 : t) : Prop :=
  String.leb (locale d1) (locale d2).

#[global] Instance locale_le_dec : RelDecision locale_le.
Proof. intros d1 d2. unfold locale_le. apply _. Defined.

(** The handler, given the already split [localeArray]:
    [result[translation.locale] = { value, context, status, variables }]. *)
Definition getEntry_step (result : gmap string entry_view) (translation : t)
    : gmap string entry_view :=
  js_set (locale translation) (view translation) result.

Definition getEntry (ns k : string) (localeArray : list string)
    (db : list t) : gmap string entry_view :=
  let translations :=
    merge_sort locale_le (List.filter (getEntry_filter ns k localeArray) db) in
  foldl getEntry_step ∅ translations.

(** *** PUT /api/i18n/:namespace/:key/:locale *)

(** The request body; an absent field is [None] (JS [undefined]). *)
Record patch := mkPatch {
  p_value : option string;
  p_context : option string;
  p_variables : option (list variable);
  p_status : option string;
  p_updatedBy : option string
}.

(** JS [s || dflt] on an optional string: [undefined] and [''] are falsy. *)
Definition or_else (s : option string) (dflt : string) : string :=
  match s with
  | Some x => if x === "" then dflt else x
  | None => dflt
  end.

(** The update object [{ value, context, variables,
    status: status || 'draft', 'metadata.createdBy': updatedBy }]. *)
Definition put_update (p : patch) (now : nat) (d : t) : t :=
  {| namespace := namespace d; key := key d; locale := locale d;
     value := default (value d) (p_value p);
     context := match p_context p with Some c => Some c | None => context d end;
     status := or_else (p_status p) "draft";
     metadata := set_createdBy (default "system" (p_updatedBy p)) (metadata d);
     variables := default (variables d) (p_variables p);
     isActive := isActive d;
     createdAt := createdAt d; updatedAt := now |}.

(** The handler; a [None] result is the 404 'Translation not found'. *)
Definition updateEntry (ns k l : string) (p : patch) (now : nat)
    (db : list t) : list t * option t :=
  findOneAndUpdate (by_ident ns k l) (put_update p now) db.

(** *** POST /api/i18n/publish *)

(** [{ namespace, key: { $in: keys }, status: { $in: ['draft', 'reviewed'] } }]. *)
Definition publish_filter (ns : string) (keys : list string) (d : t) : bool :=
  (namespace d === ns) && inb (key d) keys
  && inb (status d) ["draft"; "reviewed"].

(** [{ status: 'published', 'metadata.publishedAt': new Date(),
       'metadata.createdBy': publishedBy }]. *)
Definition publish_update (by_ : string) (now : nat) (d : t) : t :=
  {| namespace := namespace d; key := key d; locale := locale d;
     value := value d; context := context d;
     status := "published";
     metadata := set_createdBy by_ (set_publishedAt now (metadata d));
     variables := variables d;
     isActive := isActive d;
     createdAt := createdAt d; updatedAt := now |}.

(** The handler, with the body default [publishedBy = 'system']; the
    second component is [result.modifiedCount]. *)
Definition publish (ns : string) (keys : list string)
    (publishedBy : option string) (now : nat) (db : list t)
    : list t * nat :=
  updateMany (publish_filter ns keys)
    (publish_update (default "system" publishedBy) now) db.

(** *** The write requests, as a transition system on the collection *)

(** [PostKeys] carries [translations] as [postKeys] takes it: the array
    of [Object.entries]. *)
Inductive request :=
| PostKeys (ns k : string) (translations : list (string * string))
    (ctx : option string) (vars : option (list variable))
    (createdBy_ : option string)
| PutEntry (ns k l : string) (p : patch)
| PostPublish (ns : string) (keys : list string)
    (publishedBy : option string).

(** The collection after a request served at time [now]. *)
Definition handle (r : request) (now : nat) (db : list t) : list t :=
  match r with
  | PostKeys ns k translations ctx vars createdBy_ =>
      (postKeys ns k translations ctx vars createdBy_ now db).1
  | PutEntry ns k l p => (updateEntry ns k l p now db).1
  | PostPublish ns keys publishedBy =>
      (publish ns keys publishedBy now db).1
  end.

(** A sequence of timed requests, served in order. *)
Definition run (trace : list (request * nat)) (db : list t) : list t :=
  foldl (λ acc rn, handle rn.1 rn.2 acc) db trace.

(** The stored [metadata.publishedAt] of the record of a triple, if the
    record exists and carries one. *)
Definition publishedAt_of (ns k l : string) (db : list t) : option nat :=
  match findOne (by_ident ns k l) db with
  | Some d => publishedAt (metadata d)
  | None => None
  end.

(** The number of positions at which two states of the collection differ. *)
Definition count_modified (db db' : list t) : nat :=
  List.length (List.filter (λ p, bool_decide (p.1 ≠ p.2)) (zip db db')).

(** The index triple a bundle row was projected from. *)
Definition row_ident (row : bundles_row) : string * string * string :=
  (bs_namespace row, bs_key row, bs_locale row).

(** The logical reading of [publish_filter]. *)
Definition publishable (ns : string) (keys : list string) (d : t) : Prop :=
  namespace d = ns ∧ key d ∈ keys
  ∧ (status d = "draft" ∨ status d = "reviewed").

#[global] Instance publishable_dec ns keys d : Decision (publishable ns keys d).
Proof. unfold publishable. apply _. Defined.

(** *** What the write routes keep of a record, and how the collection grows *)

(** The fields no write route assigns on an existing record. *)
Definition keeps (x y : t) : Prop :=
  ident y = ident x ∧ isActive y = isActive x ∧ createdAt y = createdAt x.

(** [db2] holds the records of [db] at the same positions, each possibly
    updated but with the fields of [keeps] as they were, followed by
    inserted records, all of them active. *)
Definition grows (db db2 : list t) : Prop :=
  ∃ db' added,
    db2 = db' ++ added
    ∧ Forall2 keeps db db'
    ∧ Forall (λ d, isActive d = true) added.

(** The body of the loop of [postKeys], as a step on the collection and the
    [results] array. *)
Definition postKeys_step (ns k : string) (ctx : option string)
    (vars : option (list variable)) (createdBy_ : option string) (now : nat)
    (acc : list t * list t) (lv : string * string) : list t * list t :=
  let '(db', d) := upsert ns k lv.1 lv.2 ctx (default [] vars)
                     (default "system" createdBy_) now acc.1 in
  (db', acc.2 ++ [d]).

(** *** Query strings *)

(** [String.prototype.split(',')]: the pieces between the commas, an empty
    string giving one empty piece. *)
Fixpoint split_comma (s : string) : list string :=
  match s with
  | EmptyString => [""]
  | String c rest =>
      let parts := split_comma rest in
      if Ascii.eqb c ","%char then "" :: parts
      else String c (hd "" parts) :: tl parts
  end.

Definition comma_free (s : string) : Prop :=
  ","%char ∉ String.list_ascii_of_string s.

(** *** GET /api/i18n/:namespace and GET /api/i18n *)

(** [rows.forEach(bundle => { target[bundle.key] = bundle.value })]. *)
Definition fill_keys (rows : list bundles_row) : gmap string string :=
  foldl (λ target bundle, js_set (bs_key bundle) (bs_value bundle) target)
    ∅ rows.

(** GET /api/i18n/:namespace, with the query defaults [locales = 'en'] and
    [status = 'published']; the answer is the [data] object, as the own
    properties of [result] and of the objects under it. *)
Definition getI18nNamespace (namespace_ : string)
    (locales status_ : option string) (db : list t)
    : gmap string (gmap string string) :=
  let localeArray := split_comma (default "en" locales) in
  let bundles :=
    getBundles [namespace_] localeArray
      (Some (default "published" status_)) db in
  foldl (λ result locale_,
           js_set locale_
             (fill_keys (List.filter (λ b, bs_locale b === locale_) bundles))
             result)
    ∅ localeArray.

(** GET /api/i18n, with the further default [namespaces = 'ui,emails']. *)
Definition getI18n (namespaces locales status_ : option string)
    (db : list t) : gmap string (gmap string (gmap string string)) :=
  let namespaceArray := split_comma (default "ui,emails" namespaces) in
  let localeArray := split_comma (default "en" locales) in
  let bundles :=
    getBundles namespaceArray localeArray
      (Some (default "published" status_)) db in
  foldl (λ result namespace_,
           js_set namespace_
             (foldl (λ inner locale_,
                       js_set locale_
                         (fill_keys
                            (List.filter
                               (λ b, (bs_namespace b === namespace_)
                                     && (bs_locale b === locale_))
                               bundles))
                         inner)
                ∅ localeArray)
             result)
    ∅ namespaceArray.

End Routes.

(* ===================================================================== *)
(** ** src/index.js: GET /api/glossary/:tenantId *)
(* ===================================================================== *)

Module GlossaryRoutes.
Import Glossary.

(** One element of the answer's [data] array. *)
Record row := mkRow {
  r_term : string;
  r_translation : string;
  r_category : string;
  r_context : string;
  r_usageCount : nat
}.

(** [let filter = { tenantId, isActive: true };
     if (category) filter.category = category;]: an empty [category] is
    falsy and filters nothing. *)
Definition listing_filter (tenantId_ : string) (category_ : option string)
    (g : t) : bool :=
  (tenantId g === tenantId_) && isActive g
  && match category_ with
     | Some c => if c === "" then true else category g === c
     | None => true
     end.

(** [.sort({ 'metadata.usageCount': -1, term: 1 })]. *)
Definition listing_order (a b : t) : Prop :=
  usageCount b < usageCount a
  ∨ (usageCount a = usageCount b ∧ String.leb (term a) (term b)).

#[global] Instance listing_order_dec : RelDecision listing_order.
Proof. intros a b. unfold listing_order. apply _. Defined.

(** [.limit(n)]: MongoDB takes a limit of 0 as no limit. *)
Definition limit_ {A} (n : nat) (l : list A) : list A :=
  if n =? 0 then l else take n l.

(** [item.translations.find(t => t.locale === locale)?.context || '']. *)
Definition context_for (locale_ : string) (g : t) : string :=
  match List.find (λ t, locale t === locale_) (translations g) with
  | Some t => context t
  | None => ""
  end.

Definition to_row (locale_ : string) (g : t) : row :=
  {| r_term := term g;
     r_translation := getTranslation g locale_;
     r_category := category g;
     r_context := context_for locale_ g;
     r_usageCount := usageCount g |}.

(** The handler, with the query defaults [locale = 'en'], [limit = 100] and
    [offset = 0]; [limit] and [offset] are the numbers [parseInt] gives. The
    cursor skips before it limits, in whatever order the two are chained.
    The answer is the [data] array ([count] is its length). *)
Definition getGlossary (tenantId_ : string) (locale_ category_ : option string)
    (limit offset : option nat) (db : list t) : list row :=
  let glossary :=
    limit_ (default 100 limit)
      (drop (default 0 offset)
         (merge_sort listing_order
            (List.filter (listing_filter tenantId_ category_) db))) in
  map (to_row (default "en" locale_)) glossary.

End GlossaryRoutes.

(* ===================================================================== *)
(** ** Sample data *)
(* ===================================================================== *)

Module Sample.

(** The term of the testable property of the specification. *)
Definition example_term : Glossary.t :=
  {| Glossary.tenantId := "t1"; Glossary.term := "Hello";
     Glossary.translations :=
       [ Glossary.mkTranslation "fr" "A" "" false;
         Glossary.mkTranslation "es" "B" "" true ];
     Glossary.category := "business"; Glossary.createdBy := "system";
     Glossary.lastUsed := None; Glossary.usageCount := 0;
     Glossary.isActive := true; Glossary.updatedAt := 0 |}.

(** A record created by the upsert route in an empty collection. *)
Definition fresh_doc : Translation.t :=
  (Routes.upsert "ui" "k1" "en" "Hi" None [] "alice" 0 []).2.

(** The same record as stored after [archive()]. *)
Definition archived_doc : Translation.t :=
  Translation.stored_after Translation.Archive 5 fresh_doc.

(** The archived record written to again by the upsert route. *)
Definition revived_db : list Translation.t :=
  (Routes.upsert "ui" "k1" "en" "Hello" None [] "alice" 7 [archived_doc]).1.

Definition revived_doc : Translation.t :=
  (Routes.upsert "ui" "k1" "en" "Hello" None [] "alice" 7 [archived_doc]).2.

(** A collection holding one published record, reached through the routes. *)
Definition published_db : list Translation.t :=
  Routes.run [ (Routes.PostKeys "ui" "k1" [("en", "Hi")] None None
                  (Some "alice"), 0);
               (Routes.PostPublish "ui" ["k1"] (Some "bob"), 1) ] [].

Definition published_doc : Translation.t :=
  Routes.publish_update "bob" 1 fresh_doc.

Definition value_only_patch : Routes.patch :=
  Routes.mkPatch (Some "Hello") None None None None.

(** Publish, edit through the upsert route, then publish again. *)
Definition republish_trace : list (Routes.request * nat) :=
  [ (Routes.PostKeys "ui" "k1" [("en", "Hi")] None None (Some "alice"), 0);
    (Routes.PostPublish "ui" ["k1"] (Some "bob"), 1);
    (Routes.PostKeys "ui" "k1" [("en", "Hello")] None None (Some "alice"), 2) ].

(** The key [greeting] published for [en] and [ar], with a draft for [fr]. *)
Definition greeting_db : list Translation.t :=
  Routes.run
    [ (Routes.PostKeys "ui" "greeting" [("en", "Hello"); ("ar", "Marhaba")]
         None None None, 0);
      (Routes.PostPublish "ui" ["greeting"] None, 1);
      (Routes.PostKeys "ui" "greeting" [("fr", "Bonjour")] None None None, 2) ]
    [].


(** A still active record whose status the update route set to [archived]. *)
Definition status_only_archived_trace : list (Routes.request * nat) :=
  [ (Routes.PostKeys "ui" "k1" [("en", "Hi")] None None (Some "alice"), 0);
    (Routes.PutEntry "ui" "k1" "en"
       (Routes.mkPatch None None None (Some "archived") None), 1) ].

Definition status_only_archived_db : list Translation.t :=
  Routes.run status_only_archived_trace [].


(** A published record whose value is the empty string, as the upsert
    route, which does not validate, stores it. *)
Definition empty_value_doc : Translation.t :=
  Routes.publish_update "bob" 1
    (Routes.upsert "ui" "k1" "en" "" None [] "alice" 0 []).2.

(** Three terms of one tenant and one of another. *)
Definition glossary_db : list Glossary.t :=
  [ {| Glossary.tenantId := "t1"; Glossary.term := "invoice";
       Glossary.translations := [Glossary.mkTranslation "fr" "facture" "" true];
       Glossary.category := "business"; Glossary.createdBy := "system";
       Glossary.lastUsed := None; Glossary.usageCount := 2;
       Glossary.isActive := true; Glossary.updatedAt := 0 |};
    {| Glossary.tenantId := "t1"; Glossary.term := "cart";
       Glossary.translations := [];
       Glossary.category := "marketing"; Glossary.createdBy := "system";
       Glossary.lastUsed := None; Glossary.usageCount := 5;
       Glossary.isActive := true; Glossary.updatedAt := 0 |};
    {| Glossary.tenantId := "t2"; Glossary.term := "cart";
       Glossary.translations := [];
       Glossary.category := "business"; Glossary.createdBy := "system";
       Glossary.lastUsed := None; Glossary.usageCount := 9;
       Glossary.isActive := true; Glossary.updatedAt := 0 |};
    {| Glossary.tenantId := "t1"; Glossary.term := "basket";
       Glossary.translations := [];
       Glossary.category := "business"; Glossary.createdBy := "system";
       Glossary.lastUsed := None; Glossary.usageCount := 2;
       Glossary.isActive := true; Glossary.updatedAt := 0 |} ].

End Sample.

(* ===================================================================== *)
(** ** Properties as the specification words them *)
(* ===================================================================== *)

(** Statements of the specification that the code does not satisfy as
    worded; each is refuted in the second part by a run of the code, next
    to the statement that does hold. *)
Module AsStated.
Import Translation Routes.

(** "[publishedAt] is set exactly once ... and never overwritten": once a
    record carries a timestamp, no request changes it. *)
Definition publishedAt_written_once : Prop :=
  ∀ trace r now ns k l at_,
    publishedAt_of ns k l (run trace []) = Some at_ →
    publishedAt_of ns k l (handle r now (run trace [])) = Some at_.

(** "[updateFields] does not reset status unless status is explicitly
    included". *)
Definition update_without_status_keeps_status : Prop :=
  ∀ ns k l p now db d,
    findOne (by_ident ns k l) db = Some d →
    p_status p = None →
    ∃ d', (updateEntry ns k l p now db).2 = Some d' ∧ status d' = status d.

(** "[publish] bulk-transitions every active entry ...": an inactive
    entry is left untouched. *)
Definition publish_spares_inactive : Prop :=
  ∀ ns keys publishedBy now db i d,
    db !! i = Some d →
    isActive d = false →
    (publish ns keys publishedBy now db).1 !! i = Some d.

(** "[upsert] then [getEntry] returns exactly that value with
    [status=draft]". *)
Definition upsert_then_getEntry_returns : Prop :=
  ∀ ns k l v ctx vars by_ now db,
    unique_index db →
    ∃ e, getEntry ns k [l] (upsert ns k l v ctx vars by_ now db).1 !! l = Some e
         ∧ e_value e = v ∧ e_status e = "draft".


End AsStated.

(* ===================================================================== *)
(** * Properties *)
(* ===================================================================== *)

(** ** Generic facts on [List.find], [List.filter] and [inb] *)

Section ListFacts.
Context {A : Type}.
Implicit Types (f : A → bool) (l : list A).

Lemma find_first f l pre e post :
  l = pre ++ e :: post → f e = true → Forall (λ x, f x = false) pre →
  List.find f l = Some e.
Proof.
  intros -> He Hpre. induction Hpre as [|x pre Hx _ IH]; simpl.
  - by rewrite He.
  - by rewrite Hx.
Qed.

Lemma find_none f l : Forall (λ x, f x = false) l → List.find f l = None.
Proof. induction 1 as [|x l Hx _ IH]; simpl; [done|by rewrite Hx]. Qed.

Lemma filter_none f l : Forall (λ x, f x = false) l → List.filter f l = [].
Proof. induction 1 as [|x l Hx _ IH]; simpl; [done|by rewrite Hx]. Qed.

Lemma filter_filter_length f g l :
  List.length (List.filter f (List.filter g l)) ≤ List.length (List.filter f l).
Proof.
  induction l as [|x l IH]; simpl; [done|].
  destruct (g x), (f x) eqn:Hf; simpl; rewrite ?Hf; simpl; lia.
Qed.
Lemma find_split f l d :
  List.find f l = Some d →
  ∃ pre post, l = pre ++ d :: post ∧ Forall (λ x, f x = false) pre ∧ f d = true.
Proof.
  induction l as [|x l IH]; simpl; [done|].
  destruct (f x) eqn:Hx.
  - intros [= ->]. by exists [], l.
  - intros (pre & post & -> & Hpre & Hd)%IH.
    exists (x :: pre), post. split_and!; [done|by constructor|done].
Qed.

Lemma find_none_inv f l : List.find f l = None → Forall (λ x, f x = false) l.
Proof.
  induction l as [|x l IH]; simpl; [done|].
  destruct (f x) eqn:Hx; [done|]. intros H. constructor; auto.
Qed.

Lemma NoDup_map_filter {B} (g : A → B) f l :
  NoDup (map g l) → NoDup (map g (List.filter f l)).
Proof.
  induction l as [|x l IH]; simpl; [done|].
  intros [Hx Hl]%NoDup_cons. destruct (f x); simpl; [|by apply IH].
  apply NoDup_cons. split; [|by apply IH].
  intros Hin. apply Hx. apply list_elem_of_fmap in Hin as (y & -> & Hy).
  apply list_elem_of_fmap. exists y. split; [done|].
  apply list_elem_of_In. apply list_elem_of_In, filter_In in Hy. tauto.
Qed.

(** Two lists related position by position, under a predicate the
    relation preserves: [List.find] picks related elements. *)
Lemma find_Forall2 (R : A → A → Prop) f l l' :
  Forall2 R l l' → (∀ x y, R x y → f y = f x) →
  match List.find f l, List.find f l' with
  | Some d, Some d' => R d d'
  | None, None => True
  | _, _ => False
  end.
Proof.
  intros HR Hf. induction HR as [|x y l l' Hxy _ IH]; simpl; [done|].
  rewrite (Hf _ _ Hxy). by destruct (f x).
Qed.
Lemma elem_of_filter_bool f l x : x ∈ List.filter f l ↔ x ∈ l ∧ f x = true.
Proof. by rewrite !list_elem_of_In, filter_In. Qed.

Lemma find_elem_of f l d : List.find f l = Some d → d ∈ l ∧ f d = true.
Proof. intros H%find_some. by rewrite list_elem_of_In. Qed.

Lemma find_map f (g : A → A) l :
  (∀ x, f (g x) = f x) → List.find f (map g l) = g <$> List.find f l.
Proof.
  intros Hfg. induction l as [|x l IH]; simpl; [done|].
  rewrite Hfg. by destruct (f x).
Qed.
Lemma lookup_js_set {V} (name : string) (v : V) (o : gmap string V) k :
  Routes.js_set name v o !! k
  = if decide (name = k ∧ k ≠ "__proto__") then Some v else o !! k.
Proof.
  unfold Routes.js_set. destruct (String.eqb_spec name "__proto__") as [->|Hn].
  - rewrite decide_False; [done|]. by intros [<- ?].
  - destruct (decide (name = k)) as [<-|Hne].
    + by rewrite decide_True, lookup_insert_eq.
    + rewrite decide_False, lookup_insert_ne; [done..|]. by intros [? _].
Qed.

Lemma foldl_js_set_by_key {V} (f : string → V) (xs : list string)
    (acc : gmap string V) (k : string) :
  foldl (λ r x, Routes.js_set x (f x) r) acc xs !! k
  = if decide (k ∈ xs ∧ k ≠ "__proto__") then Some (f k) else acc !! k.
Proof.
  set (g := λ (r : gmap string V) (x : string), Routes.js_set x (f x) r).
  revert acc. induction xs as [|x xs IH]; intros acc.
  - rewrite decide_False; [done|]. by intros [?%elem_of_nil _].
  - change (foldl g acc (x :: xs)) with (foldl g (g acc x) xs). rewrite IH.
    unfold g. rewrite lookup_js_set.
    destruct (decide (k ∈ xs ∧ k ≠ "__proto__")) as [[Hin Hk]|Hnin].
    + rewrite decide_True; [done|]. split; [by right|done].
    + destruct (decide (x = k ∧ k ≠ "__proto__")) as [[-> Hk]|Hne].
      * rewrite decide_True; [done|]. split; [by left|done].
      * rewrite decide_False; [done|].
        intros [[->|Hin]%elem_of_cons Hk]; [by apply Hne|by apply Hnin].
Qed.

End ListFacts.

Lemma inb_true x xs : inb x xs = true ↔ x ∈ xs.
Proof.
  unfold inb. rewrite existsb_exists. split.
  - intros (y & Hy & Heq). apply String.eqb_eq in Heq as ->.
    by apply list_elem_of_In.
  - intros Hx. exists x. split; [by apply list_elem_of_In|apply String.eqb_refl].
Qed.

Lemma inb_false x xs : inb x xs = false ↔ x ∉ xs.
Proof.
  rewrite <- inb_true. destruct (inb x xs); naive_solver.
Qed.

(** ** Glossary terms *)

Section GlossaryFacts.
Import Glossary Sample.

Example getTranslation_preferred_fallback :
  getTranslation example_term "de" = "B".
Proof. reflexivity. Qed.

Example getTranslation_exact_beats_preferred :
  getTranslation example_term "fr" = "A".
Proof. reflexivity. Qed.

(** C1. [getTranslation] follows the fallback chain in priority order:
    (1) the first entry whose locale is the requested one, whatever entry
    is preferred; (2) when no entry has that locale, the first entry with
    [isPreferred = true]; (3) when there is neither, the first stored
    entry; (4) when [translations] is empty, the term itself. *)
Theorem getTranslation_fallback_chain (g : Glossary.t) (loc : string) :
  (∀ pre e post,
      translations g = pre ++ e :: post →
      locale e = loc →
      Forall (λ x, locale x ≠ loc) pre →
      getTranslation g loc = value e)
  ∧ (∀ pre p post,
      Forall (λ x, locale x ≠ loc) (translations g) →
      translations g = pre ++ p :: post →
      isPreferred p = true →
      Forall (λ x, isPreferred x = false) pre →
      getTranslation g loc = value p)
  ∧ (∀ first rest,
      Forall (λ x, locale x ≠ loc) (translations g) →
      Forall (λ x, isPreferred x = false) (translations g) →
      translations g = first :: rest →
      getTranslation g loc = value first)
  ∧ (translations g = [] → getTranslation g loc = term g).
Proof.
  assert (Hno : Forall (λ x, locale x ≠ loc) (translations g) →
                List.find (λ t, locale t === loc) (translations g) = None).
  { intros H. apply find_none. eapply Forall_impl; [exact H|].
    intros x Hx. by apply String.eqb_neq. }
  unfold getTranslation. repeat split.
  - intros pre e post Hts He Hpre.
    erewrite find_first; [done|exact Hts|by apply String.eqb_eq|].
    eapply Forall_impl; [exact Hpre|]. intros x Hx. by apply String.eqb_neq.
  - intros pre p post Hloc Hts Hp Hpre. rewrite (Hno Hloc).
    by erewrite find_first; [|exact Hts|exact Hp|exact Hpre].
  - intros first rest Hloc Hpref Hts. rewrite (Hno Hloc).
    rewrite (find_none (λ t, isPreferred t) _ Hpref). by rewrite Hts.
  - intros Hts. by rewrite Hts.
Qed.

Lemma getTranslation_fallback_chain_witness :
  getTranslation example_term "fr" = "A"
  ∧ getTranslation example_term "de" = "B"
  ∧ getTranslation (with_translations [mkTranslation "fr" "A" "" false]
                      example_term) "de" = "A"
  ∧ getTranslation (with_translations [] example_term) "de" = "Hello".
Proof.
  split; [|split; [|split]].
  - apply (proj1 (getTranslation_fallback_chain example_term "fr")
             [] (mkTranslation "fr" "A" "" false)
             [mkTranslation "es" "B" "" true]);
      [reflexivity|reflexivity|constructor].
  - apply (proj1 (proj2 (getTranslation_fallback_chain example_term "de"))
             [mkTranslation "fr" "A" "" false]
             (mkTranslation "es" "B" "" true) []);
      [repeat constructor; discriminate|reflexivity|reflexivity
      |repeat constructor].
  - apply (proj1 (proj2 (proj2 (getTranslation_fallback_chain
             (with_translations [mkTranslation "fr" "A" "" false]
                example_term) "de")))
             (mkTranslation "fr" "A" "" false) []);
      [repeat constructor; discriminate|repeat constructor|reflexivity].
  - apply (proj2 (proj2 (proj2 (getTranslation_fallback_chain
             (with_translations [] example_term) "de")))).
    reflexivity.
Defined.

(** *** [addTranslation] and the invariant of [translations] *)

Lemma map_locale_unmark loc (l : list translation) :
  map locale (map (unmark_unless loc) l) = map locale l.
Proof.
  induction l as [|x l IH]; simpl; [done|]. rewrite IH. f_equal.
  unfold unmark_unless. by destruct (negb (locale x === loc)).
Qed.

Lemma kept_locale_ne loc (ts : list translation) :
  Forall (λ t, locale t ≠ loc)
    (List.filter (λ t, negb (locale t === loc)) ts).
Proof.
  apply Forall_forall. intros x Hx. apply list_elem_of_In, filter_In in Hx.
  destruct Hx as [_ Hx]. apply negb_true_iff in Hx. by apply String.eqb_neq.
Qed.

Lemma filter_locale_kept loc (ts : list translation) :
  List.filter (λ t, locale t === loc)
    (List.filter (λ t, negb (locale t === loc)) ts) = [].
Proof.
  apply filter_none. eapply Forall_impl; [apply kept_locale_ne|].
  intros x Hx. by apply String.eqb_neq.
Qed.

Lemma filter_preferred_unmarked loc (l : list translation) :
  Forall (λ t, locale t ≠ loc) l →
  List.filter (λ t, isPreferred t) (map (unmark_unless loc) l) = [].
Proof.
  intros H. apply filter_none. apply Forall_forall. intros y Hy.
  apply list_elem_of_fmap in Hy as (x & -> & Hx).
  rewrite Forall_forall in H. specialize (H x Hx).
  apply String.eqb_neq in H. unfold unmark_unless. by rewrite H.
Qed.

Lemma unmark_same_locale loc val ctx pref :
  unmark_unless loc (mkTranslation loc val ctx pref)
  = mkTranslation loc val ctx pref.
Proof. unfold unmark_unless. simpl. by rewrite String.eqb_refl. Qed.

Lemma filter_locale_unmark loc (l : list translation) :
  List.filter (λ t, locale t === loc) (map (unmark_unless loc) l)
  = map (unmark_unless loc) (List.filter (λ t, locale t === loc) l).
Proof.
  induction l as [|x l IH]; simpl; [done|].
  assert (locale (unmark_unless loc x) = locale x) as ->.
  { unfold unmark_unless. by destruct (negb (locale x === loc)). }
  destruct (locale x === loc); simpl; by rewrite IH.
Qed.

Lemma map_unmark_kept loc (l : list translation) :
  Forall (λ t, locale t ≠ loc) l →
  map (unmark_unless loc) l
  = map (λ t, mkTranslation (locale t) (value t) (context t) false) l.
Proof.
  intros H. apply map_ext_Forall. eapply Forall_impl; [exact H|].
  intros x Hx. apply String.eqb_neq in Hx. unfold unmark_unless.
  by rewrite Hx.
Qed.

(** C7. [addTranslation] preserves the invariant of the [translations]
    array of the document (the array as the method leaves it; the method
    changes it before it calls [save()]): from a state with at most one
    preferred entry and at most one entry per locale it reaches a state
    with the same two properties, in which the entries for the given locale
    are exactly the new entry (an existing entry for that locale is
    replaced). When the call passes [isPreferred = true] the new entry is
    the only preferred one and every entry of another locale has
    [isPreferred = false]. The entries of the other locales are all kept,
    in their order and before the new entry, with their locale, value and
    context; their [isPreferred] is cleared when the call passes
    [isPreferred = true] and is as it was otherwise. *)
Theorem addTranslation_preserves_invariant (g : Glossary.t)
    (loc val : string) (ctx : option string) (pref : option bool)
    (now : nat) :
  at_most_one_preferred (translations g) →
  one_per_locale (translations g) →
  let ts' := translations (addTranslation loc val ctx pref now g) in
  let new := mkTranslation loc val (default "" ctx) (default false pref) in
  let others := List.filter (λ t, negb (locale t === loc)) (translations g) in
  at_most_one_preferred ts'
  ∧ one_per_locale ts'
  ∧ List.filter (λ t, locale t === loc) ts' = [new]
  ∧ (pref = Some true →
     List.filter (λ t, isPreferred t) ts' = [new]
     ∧ ∀ e, e ∈ ts' → locale e ≠ loc → isPreferred e = false)
  ∧ ts' = match pref with
          | Some true =>
              map (λ t, mkTranslation (locale t) (value t) (context t) false)
                others
          | _ => others
          end ++ [new].
Proof.
  intros Hpref Hloc. simpl.
  unfold at_most_one_preferred, one_per_locale, addTranslation_list in *.
  set (kept := List.filter (λ t, negb (locale t === loc)) (translations g)).
  set (ctx' := default "" ctx).
  assert (Hkept : Forall (λ t, locale t ≠ loc) kept) by apply kept_locale_ne.
  assert (Hnodup : NoDup (map locale (kept ++ [mkTranslation loc val ctx' (default false pref)]))).
  { rewrite map_app. apply NoDup_app. split; [by apply NoDup_map_filter|].
    split; [|apply NoDup_singleton]. simpl. intros x Hx Hx'.
    apply list_elem_of_singleton in Hx' as ->.
    apply list_elem_of_fmap in Hx as (y & Hy & Hin).
    rewrite Forall_forall in Hkept. by apply (Hkept y Hin). }
  assert (Hone : ∀ b, List.filter (λ t, locale t === loc)
                   (kept ++ [mkTranslation loc val ctx' b])
                 = [mkTranslation loc val ctx' b]).
  { intros b. rewrite List.filter_app. unfold kept.
    rewrite filter_locale_kept. simpl. by rewrite String.eqb_refl. }
  destruct pref as [[|]|]; simpl.
  - assert (Hfp : List.filter (λ t, isPreferred t)
              (map (unmark_unless loc) (kept ++ [mkTranslation loc val ctx' true]))
            = [mkTranslation loc val ctx' true]).
    { rewrite map_app, List.filter_app, filter_preferred_unmarked by done.
      simpl. by rewrite unmark_same_locale. }
    split_and!.
    + rewrite Hfp. simpl. lia.
    + by rewrite map_locale_unmark.
    + by rewrite filter_locale_unmark, Hone; simpl; rewrite unmark_same_locale.
    + intros _. split; [done|]. intros e He Hne. destruct (isPreferred e) eqn:Hp; [|done].
      assert (e ∈ [mkTranslation loc val ctx' true]) as Hin.
      { rewrite <- Hfp. apply list_elem_of_In, filter_In.
        split; [by apply list_elem_of_In|done]. }
      apply list_elem_of_singleton in Hin as ->. by destruct Hne.
    + rewrite map_app, map_unmark_kept by done. simpl.
      by rewrite unmark_same_locale.
  - split_and!; [|done|apply Hone|done|done].
    rewrite List.filter_app. simpl. rewrite app_nil_r.
    etrans; [apply filter_filter_length|done].
  - split_and!; [|done|apply Hone|done|done].
    rewrite List.filter_app. simpl. rewrite app_nil_r.
    etrans; [apply filter_filter_length|done].
Qed.

Lemma addTranslation_preserves_invariant_witness :
  at_most_one_preferred (translations example_term)
  ∧ one_per_locale (translations example_term)
  ∧ translations (addTranslation "de" "C" None (Some true) 7 example_term)
    = map (λ t, mkTranslation (locale t) (value t) (context t) false)
        (translations example_term)
      ++ [mkTranslation "de" "C" "" true]
  ∧ List.filter (λ t, isPreferred t)
      (translations (addTranslation "de" "C" None (Some true) 7 example_term))
    = [mkTranslation "de" "C" "" true].
Proof.
  assert (H1 : at_most_one_preferred (translations example_term))
    by (unfold at_most_one_preferred; simpl; lia).
  assert (H2 : one_per_locale (translations example_term))
    by (apply (bool_decide_unpack _); vm_compute; exact I).
  assert (Hkept :
    translations (addTranslation "de" "C" None (Some true) 7 example_term)
    = map (λ t, mkTranslation (locale t) (value t) (context t) false)
        (translations example_term)
      ++ [mkTranslation "de" "C" "" true]).
  { destruct (addTranslation_preserves_invariant example_term "de" "C" None
                (Some true) 7 H1 H2) as (_ & _ & _ & _ & Hts).
    exact Hts. }
  split_and!; [exact H1|exact H2|exact Hkept|].
  destruct (addTranslation_preserves_invariant example_term "de" "C" None
              (Some true) 7 H1 H2) as (_ & _ & _ & Hpref & _).
  apply (proj1 (Hpref eq_refl)).
Defined.

(** The testable property of the specification: after [en] and then [fr]
    are added as preferred, only the [fr] entry is preferred. *)
Example addTranslation_en_then_fr :
  List.filter (λ t, isPreferred t)
    (translations
       (addTranslation "fr" "Bonjour" None (Some true) 2
          (addTranslation "en" "Hello" None (Some true) 1
             (with_translations [] example_term))))
  = [mkTranslation "fr" "Bonjour" "" true].
Proof. reflexivity. Qed.

End GlossaryFacts.

(** ** The collection under the routes *)

Section StoreFacts.
Import Translation Routes.
Implicit Types (d : t) (db : list t) (f : t → bool) (u : t → t).

Lemma by_ident_true ns k l d : by_ident ns k l d = true ↔ ident d = (ns, k, l).
Proof.
  unfold by_ident, ident. rewrite !andb_true_iff, !String.eqb_eq.
  split; [intros [[-> ->] ->]; done|intros [= -> -> ->]; done].
Qed.

Lemma by_ident_false ns k l d : by_ident ns k l d = false ↔ ident d ≠ (ns, k, l).
Proof.
  rewrite <- by_ident_true. destruct (by_ident ns k l d); naive_solver.
Qed.

Lemma by_ident_same ns k l d d' :
  ident d' = ident d → by_ident ns k l d' = by_ident ns k l d.
Proof. unfold by_ident, ident. by intros [= -> -> ->]. Qed.

Lemma findOneAndUpdate_pointwise f u db :
  Forall2 (updated_by f u) db (findOneAndUpdate f u db).1.
Proof.
  induction db as [|d db IH]; simpl; [constructor|].
  destruct (f d) eqn:Hd; simpl.
  - constructor; [by right|]. apply Forall2_same_length_lookup.
    split; [done|]. intros i x y Hx Hy. left. congruence.
  - destruct (findOneAndUpdate f u db) as [rest' r]. simpl in *.
    constructor; [by left|done].
Qed.

Lemma findOneAndUpdate_none f u db :
  List.find f db = None → findOneAndUpdate f u db = (db, None).
Proof.
  induction db as [|d db IH]; simpl; [done|].
  destruct (f d); [done|]. intros H. by rewrite (IH H).
Qed.

Lemma findOneAndUpdate_some f u db d :
  List.find f db = Some d →
  ∃ pre post, db = pre ++ d :: post ∧ Forall (λ x, f x = false) pre
    ∧ f d = true
    ∧ findOneAndUpdate f u db = (pre ++ u d :: post, Some (u d)).
Proof.
  intros (pre & post & -> & Hpre & Hd)%find_split.
  exists pre, post. split_and!; [done..|].
  induction Hpre as [|x pre Hx _ IH]; simpl.
  - by rewrite Hd.
  - by rewrite Hx, IH.
Qed.

Lemma updateMany_pointwise f u db :
  Forall2 (λ d d', d' = if f d then u d else d) db (updateMany f u db).1.
Proof. simpl. induction db; simpl; by constructor. Qed.

Lemma pointwise_ident (R : t → t → Prop) db db' :
  Forall2 R db db' → (∀ d d', R d d' → ident d' = ident d) →
  map ident db' = map ident db.
Proof.
  intros HR Hid. induction HR as [|x y l l' Hxy _ IH]; simpl; [done|].
  by rewrite (Hid _ _ Hxy), IH.
Qed.

(** *** The unique index is an invariant of the write routes *)

Lemma unique_index_eq db d d' :
  unique_index db → d ∈ db → d' ∈ db → ident d = ident d' → d = d'.
Proof.
  unfold unique_index. induction db as [|x db IH]; simpl.
  - by intros _ ?%elem_of_nil.
  - intros [Hx Hdb]%NoDup_cons [->|Hd]%elem_of_cons [->|Hd']%elem_of_cons Hid;
      [done| | |by apply IH].
    + destruct Hx. rewrite Hid. by apply list_elem_of_fmap_2.
    + destruct Hx. rewrite <- Hid. by apply list_elem_of_fmap_2.
Qed.

Lemma upsert_update_ident ns k l v ctx vars by_ now d :
  by_ident ns k l d = true →
  ident (upsert_update ns k l v ctx vars by_ now d) = ident d.
Proof. by intros ->%by_ident_true. Qed.

Lemma upsert_unique_index ns k l v ctx vars by_ now db :
  unique_index db → unique_index (upsert ns k l v ctx vars by_ now db).1.
Proof.
  unfold unique_index, upsert. intros Hdb.
  destruct (List.find (by_ident ns k l) db) as [d|] eqn:Hfind.
  - pose proof (findOneAndUpdate_pointwise (by_ident ns k l)
                  (upsert_update ns k l v ctx vars by_ now) db) as Hpw.
    apply findOneAndUpdate_some
      with (u := upsert_update ns k l v ctx vars by_ now) in Hfind
      as (pre & post & _ & _ & _ & Heq).
    rewrite Heq in *. simpl in *.
    erewrite pointwise_ident; [done|exact Hpw|].
    intros x y [->|[Hx ->]]; [done|by apply upsert_update_ident].
  - rewrite findOneAndUpdate_none by done. simpl.
    rewrite map_app. apply NoDup_app. split_and!; [done| |apply NoDup_singleton].
    simpl. intros i Hi ->%list_elem_of_singleton.
    apply list_elem_of_fmap in Hi as (y & Hy & Hin).
    apply find_none_inv in Hfind. rewrite Forall_forall in Hfind.
    specialize (Hfind y Hin). by apply by_ident_false in Hfind.
Qed.

Lemma postKeys_unique_index ns k translations ctx vars by_ now db :
  unique_index db →
  unique_index (postKeys ns k translations ctx vars by_ now db).1.
Proof.
  unfold postKeys.
  match goal with |- context [foldl ?f _ _] => set (step := f) end.
  enough (∀ acc, unique_index acc.1 →
                 unique_index (foldl step acc translations).1) as H
    by (intros; by apply H).
  induction translations as [|[l v] translations IH]; intros [db0 rs] Hdb;
    simpl in *; [done|].
  apply IH. unfold step. simpl.
  pose proof (upsert_unique_index ns k l v ctx (default [] vars)
                (default "system" by_) now db0 Hdb) as Hstep.
  by destruct (upsert ns k l v ctx (default [] vars) (default "system" by_)
                 now db0).
Qed.

Lemma updateEntry_unique_index ns k l p now db :
  unique_index db → unique_index (updateEntry ns k l p now db).1.
Proof.
  unfold unique_index, updateEntry. intros Hdb.
  erewrite pointwise_ident; [done|apply findOneAndUpdate_pointwise|].
  by intros x y [->|[_ ->]].
Qed.

Lemma publish_unique_index ns keys by_ now db :
  unique_index db → unique_index (publish ns keys by_ now db).1.
Proof.
  unfold unique_index, publish. intros Hdb.
  erewrite pointwise_ident; [done|apply updateMany_pointwise|].
  intros x y ->. by destruct (publish_filter ns keys x).
Qed.

Lemma handle_unique_index r now db :
  unique_index db → unique_index (handle r now db).
Proof.
  intros Hdb. destruct r; unfold handle.
  - by apply postKeys_unique_index.
  - by apply updateEntry_unique_index.
  - by apply publish_unique_index.
Qed.

(** Every collection the service can reach from the empty one satisfies
    the unique index. *)
Lemma run_unique_index trace db :
  unique_index db → unique_index (run trace db).
Proof.
  unfold run. revert db. induction trace as [|[r now] trace IH]; simpl;
    auto using handle_unique_index.
Qed.

(** *** POST /api/i18n/publish *)

Lemma publish_filter_true ns keys d :
  publish_filter ns keys d = true ↔ publishable ns keys d.
Proof.
  unfold publish_filter, publishable.
  rewrite !andb_true_iff, String.eqb_eq, !inb_true.
  rewrite elem_of_cons, list_elem_of_singleton. tauto.
Qed.

Lemma publish_filter_false ns keys d :
  publish_filter ns keys d = false ↔ ¬ publishable ns keys d.
Proof.
  rewrite <- publish_filter_true.
  destruct (publish_filter ns keys d); naive_solver.
Qed.

Lemma publish_update_changes ns keys by_ now d :
  publish_filter ns keys d = true → publish_update by_ now d ≠ d.
Proof.
  intros (_ & _ & Hst)%publish_filter_true Heq.
  apply (f_equal status) in Heq. simpl in Heq.
  destruct Hst as [Hst|Hst]; rewrite Hst in Heq; discriminate.
Qed.

Lemma published_not_publishable ns keys by_ now d :
  publish_filter ns keys (publish_update by_ now d) = false.
Proof.
  unfold publish_filter. simpl. by rewrite andb_false_r.
Qed.

(** C4 (amended). [publish] modifies exactly the entries of the given
    namespace whose key is in [keys] and whose status is [draft] or
    [reviewed], whether or not they are active: each of them gets
    [status = published], [publishedAt] and [createdBy] stamped, and keeps
    its identity, value, context, variables and [isActive]; every other
    entry is left as it is; the returned count is the number of entries
    modified, which is the number of entries matched. *)
Theorem publish_modifies_exactly ns keys (publishedBy : option string) now db :
  let db' := (publish ns keys publishedBy now db).1 in
  let n := (publish ns keys publishedBy now db).2 in
  Forall2 (λ d d',
             (publishable ns keys d
              ∧ status d' = "published"
              ∧ publishedAt (metadata d') = Some now
              ∧ createdBy (metadata d') = default "system" publishedBy
              ∧ ident d' = ident d ∧ value d' = value d
              ∧ context d' = context d ∧ variables d' = variables d
              ∧ isActive d' = isActive d
              ∧ d' ≠ d)
             ∨ (¬ publishable ns keys d ∧ d' = d)) db db'
  ∧ n = count_modified db db'
  ∧ n = List.length (filter (publishable ns keys) db).
Proof.
  simpl. set (by_ := default "system" publishedBy). split_and!.
  - induction db as [|d db IH]; simpl; constructor; [|done].
    destruct (publish_filter ns keys d) eqn:Hf.
    + left. split_and!; try done; [by apply publish_filter_true|].
      by eapply publish_update_changes.
    + right. by apply publish_filter_false in Hf.
  - unfold count_modified. induction db as [|d db IH]; simpl; [done|].
    destruct (publish_filter ns keys d) eqn:Hf; simpl.
    + pose proof (publish_update_changes ns keys by_ now d Hf) as Hne.
      rewrite !bool_decide_true by done. simpl. by rewrite IH.
    + rewrite bool_decide_false by (by intros []). done.
  - induction db as [|d db IH]; simpl; [done|]. rewrite filter_cons.
    destruct (publish_filter ns keys d) eqn:Hf; simpl.
    + pose proof (publish_update_changes ns keys by_ now d Hf) as Hne.
      apply publish_filter_true in Hf.
      rewrite bool_decide_true, decide_True by done. simpl. by rewrite IH.
    + apply publish_filter_false in Hf. by rewrite decide_False.
Qed.

(** C5. Publishing the same keys of the same namespace a second time,
    right after a first publish, matches no entry: the collection is left
    as it is and [modifiedCount] is 0. *)
Theorem publish_twice_modifies_nothing ns keys
    (by1 by2 : option string) (t1 t2 : nat) db :
  let db1 := (publish ns keys by1 t1 db).1 in
  List.filter (publish_filter ns keys) db1 = []
  ∧ publish ns keys by2 t2 db1 = (db1, 0).
Proof.
  simpl.
  assert (Hall : Forall (λ d, publish_filter ns keys d = false)
                   (map (λ d, if publish_filter ns keys d
                              then publish_update (default "system" by1) t1 d
                              else d) db)).
  { apply Forall_forall. intros y (d & -> & _)%list_elem_of_fmap.
    destruct (publish_filter ns keys d) eqn:Hf; [|done].
    apply published_not_publishable. }
  split; [by apply filter_none|].
  unfold publish, updateMany. simpl. f_equal.
  - induction Hall as [|x l Hx _ IH]; simpl; [done|]. by rewrite Hx, IH.
  - induction Hall as [|x l Hx _ IH]; simpl; [done|]. by rewrite Hx.
Qed.

Lemma publish_modifies_exactly_witness :
  (publish "ui" ["k1"] (Some "bob") 9 Sample.revived_db).2 = 1
  ∧ count_modified Sample.revived_db
      (publish "ui" ["k1"] (Some "bob") 9 Sample.revived_db).1 = 1.
Proof.
  pose proof (publish_modifies_exactly "ui" ["k1"] (Some "bob") 9
                Sample.revived_db) as (_ & Hn & _).
  split; [reflexivity|]. rewrite <- Hn. reflexivity.
Defined.

(** An inactive draft record, as [archive()] followed by the upsert route
    leaves it, is published all the same. *)
Lemma publish_spares_inactive_fails : ¬ AsStated.publish_spares_inactive.
Proof.
  intros H.
  specialize (H "ui" ["k1"] (Some "bob") 9 Sample.revived_db 0
                Sample.revived_doc eq_refl eq_refl).
  vm_compute in H. discriminate H.
Qed.

Lemma publish_twice_modifies_nothing_witness :
  (publish "ui" ["k1"] (Some "bob") 9 Sample.revived_db).2 = 1
  ∧ publish "ui" ["k1"] (Some "bob") 10
      (publish "ui" ["k1"] (Some "bob") 9 Sample.revived_db).1
    = ((publish "ui" ["k1"] (Some "bob") 9 Sample.revived_db).1, 0).
Proof.
  split; [reflexivity|].
  apply (publish_twice_modifies_nothing "ui" ["k1"] (Some "bob") (Some "bob")
           9 10 Sample.revived_db).
Defined.

(** *** PUT /api/i18n/:namespace/:key/:locale *)

(** C3 (amended). [updateEntry] on an existing record writes the status
    of the patch when the patch has a non-empty one, and [draft] when the
    patch has no status (or an empty one); it changes that record only.
    When no record matches, the result is the not-found answer and the
    collection is left as it is. *)
Theorem updateEntry_status ns k l (p : patch) now db :
  (findOne (by_ident ns k l) db = None →
     updateEntry ns k l p now db = (db, None))
  ∧ (∀ d, findOne (by_ident ns k l) db = Some d →
       ∃ d' pre post,
         db = pre ++ d :: post
         ∧ updateEntry ns k l p now db = (pre ++ d' :: post, Some d')
         ∧ ident d' = ident d
         ∧ (p_status p = None → status d' = "draft")
         ∧ (p_status p = Some "" → status d' = "draft")
         ∧ (∀ s, p_status p = Some s → s ≠ "" → status d' = s)).
Proof.
  unfold updateEntry, findOne. split.
  - apply findOneAndUpdate_none.
  - intros d Hd.
    apply findOneAndUpdate_some with (u := put_update p now) in Hd
      as (pre & post & -> & _ & _ & Heq).
    exists (put_update p now d), pre, post. split_and!; try done.
    + intros Hp. simpl. by rewrite Hp.
    + intros Hp. simpl. by rewrite Hp.
    + intros s Hp Hs. simpl. rewrite Hp. simpl.
      apply String.eqb_neq in Hs. by rewrite Hs.
Qed.

Lemma updateEntry_status_witness :
  updateEntry "ui" "k2" "en" Sample.value_only_patch 3 Sample.published_db
  = (Sample.published_db, None)
  ∧ ∃ d', (updateEntry "ui" "k1" "en" Sample.value_only_patch 3
             Sample.published_db).2 = Some d'
          ∧ status d' = "draft".
Proof.
  split.
  - apply (proj1 (updateEntry_status "ui" "k2" "en" Sample.value_only_patch 3
                    Sample.published_db)). reflexivity.
  - destruct (proj2 (updateEntry_status "ui" "k1" "en" Sample.value_only_patch
                       3 Sample.published_db)
                Sample.published_doc eq_refl)
      as (d' & pre & post & _ & Heq & _ & Hst & _).
    exists d'. split; [by rewrite Heq|by apply Hst].
Defined.

(** A published record updated with a patch that only carries a value
    comes back as a draft. *)
Lemma update_without_status_resets_status :
  ¬ AsStated.update_without_status_keeps_status.
Proof.
  intros H.
  destruct (H "ui" "k1" "en" Sample.value_only_patch 3 Sample.published_db
              Sample.published_doc eq_refl eq_refl)
    as (d' & Hd' & Hst).
  vm_compute in Hd'. injection Hd' as <-. vm_compute in Hst. discriminate Hst.
Qed.

(** *** Bundles and inactive records *)

Lemma getBundles_elem nss locs st db row :
  row ∈ getBundles nss locs st db →
  ∃ d, d ∈ db ∧ row = select_bundles d ∧ isActive d = true.
Proof.
  unfold getBundles. intros (d & -> & Hd)%list_elem_of_fmap.
  apply elem_of_filter_bool in Hd as [Hd Hf]. exists d. split_and!; [done..|].
  unfold getBundles_filter in Hf. by apply andb_true_iff in Hf as [_ ?].
Qed.

(** Under the unique index, the triple of an inactive record occurs in no
    row of any bundle. *)
Lemma inactive_excluded db d :
  unique_index db → d ∈ db → isActive d = false →
  ∀ nss locs st row,
    row ∈ getBundles nss locs st db → row_ident row ≠ ident d.
Proof.
  intros Hdb Hd Hoff nss locs st row (x & Hx & -> & Hon)%getBundles_elem Hid.
  assert (x = d) as -> by (by eapply unique_index_eq).
  congruence.
Qed.




(** [archive()] on a record whose value is empty (the upsert route stores
    such values without validation) is rejected by [save()]: the record
    stays as it was, and is still served. *)
Example archive_rejected_on_empty_value :
  archive 5 Sample.empty_value_doc = None
  ∧ map bs_key
      (getBundles ["ui"] ["en"] None
         [stored_after Archive 5 Sample.empty_value_doc])
    = ["k1"].
Proof. split; reflexivity. Qed.

(** The update route can store the status string [archived] without going
    through [archive()]; it does not write [isActive], and the record is
    then still served for that status. *)
Example status_written_by_update_keeps_active :
  map bs_value
    (getBundles ["ui"] ["en"] (Some "archived") Sample.status_only_archived_db)
  = ["Hi"].
Proof. reflexivity. Qed.

(** C10. An upsert on a triple whose record is inactive resets the
    record's status to [draft] and replaces its value, and leaves
    [isActive] at [false]: the record occurs in no [getBundles] result,
    neither right after the upsert nor after a later publish of its key
    (which does set its status to [published]). *)
Theorem upsert_leaves_archived_inactive ns k l v ctx vars by_ now db d :
  unique_index db →
  findOne (by_ident ns k l) db = Some d →
  isActive d = false →
  let db1 := (upsert ns k l v ctx vars by_ now db).1 in
  ∃ d1, findOne (by_ident ns k l) db1 = Some d1
    ∧ status d1 = "draft" ∧ value d1 = v ∧ isActive d1 = false
    ∧ (∀ nss locs st row,
         row ∈ getBundles nss locs st db1 → row_ident row ≠ (ns, k, l))
    ∧ ∀ keys publishedBy t2,
        let db2 := (publish ns keys publishedBy t2 db1).1 in
        ∃ d2, findOne (by_ident ns k l) db2 = Some d2
          ∧ (k ∈ keys → status d2 = "published")
          ∧ isActive d2 = false
          ∧ ∀ nss locs st row,
              row ∈ getBundles nss locs st db2 → row_ident row ≠ (ns, k, l).
Proof.
  intros Hdb Hfind Hoff.
  pose proof (upsert_unique_index ns k l v ctx vars by_ now db Hdb) as Hdb1.
  unfold upsert, findOne in *.
  apply findOneAndUpdate_some
    with (u := upsert_update ns k l v ctx vars by_ now) in Hfind
    as (pre & post & -> & Hpre & Hd & Heq).
  rewrite Heq in *. simpl in *.
  set (d1 := upsert_update ns k l v ctx vars by_ now d) in *.
  assert (Hid1 : ident d1 = (ns, k, l)) by done.
  assert (Hfind1 : List.find (by_ident ns k l) (pre ++ d1 :: post) = Some d1).
  { eapply find_first; [done|by apply by_ident_true|done]. }
  assert (Hin1 : d1 ∈ pre ++ d1 :: post) by set_solver.
  exists d1. split_and!; [done..| |].
  - intros nss locs st row Hrow. rewrite <- Hid1.
    by eapply inactive_excluded.
  - intros keys publishedBy t2.
    set (g := λ x, if publish_filter ns keys x
                   then publish_update (default "system" publishedBy) t2 x
                   else x).
    assert (Hg : ∀ x, ident (g x) = ident x ∧ isActive (g x) = isActive x).
    { intros x. unfold g. by destruct (publish_filter ns keys x). }
    exists (g d1). split_and!.
    + rewrite find_map, Hfind1; [done|].
      intros x. apply by_ident_same, Hg.
    + intros Hk. unfold g.
      assert (publish_filter ns keys d1 = true) as ->; [|done].
      apply publish_filter_true. split_and!; [done..|by left].
    + by rewrite (proj2 (Hg d1)).
    + intros nss locs st row Hrow. rewrite <- Hid1, <- (proj1 (Hg d1)).
      eapply inactive_excluded; [| |by rewrite (proj2 (Hg d1))|exact Hrow].
      * by apply publish_unique_index.
      * by apply list_elem_of_fmap_2.
Qed.

Lemma upsert_leaves_archived_inactive_witness :
  ∃ d1, findOne (by_ident "ui" "k1" "en") Sample.revived_db = Some d1
    ∧ status d1 = "draft" ∧ value d1 = "Hello" ∧ isActive d1 = false
    ∧ ∀ nss locs st row,
        row ∈ getBundles nss locs st
                (publish "ui" ["k1"] None 9 Sample.revived_db).1 →
        row_ident row ≠ ("ui", "k1", "en").
Proof.
  destruct (upsert_leaves_archived_inactive "ui" "k1" "en" "Hello" None []
              "alice" 7 [Sample.archived_doc] Sample.archived_doc)
    as (d1 & H1 & H2 & H3 & H4 & _ & H5).
  - unfold unique_index. simpl. apply NoDup_singleton.
  - reflexivity.
  - reflexivity.
  - exists d1. split_and!; [exact H1|exact H2|exact H3|exact H4|].
    destruct (H5 ["k1"] None 9) as (d2 & _ & _ & _ & H6). exact H6.
Defined.

(** *** GET /api/i18n/:namespace/:key *)

Section GetEntry.
Lemma foldl_ins_Some_inv xs acc l e :
  foldl getEntry_step acc xs !! l = Some e →
  (∃ x, x ∈ xs ∧ locale x = l ∧ l ≠ "__proto__" ∧ e = view x)
  ∨ acc !! l = Some e.
Proof.
  revert acc. induction xs as [|x xs IH]; intros acc; simpl; [by right|].
  intros [(y & Hy & Hl & Hp & He)|Hacc]%IH.
  - left. exists y. split_and!; [by right|done..].
  - unfold getEntry_step in Hacc. rewrite lookup_js_set in Hacc.
    destruct (decide (locale x = l ∧ l ≠ "__proto__")) as [[<- Hp]|Hne].
    + injection Hacc as <-. left. exists x. split_and!; [by left|done..].
    + by right.
Qed.

Lemma foldl_ins_is_Some_acc xs acc l :
  is_Some (acc !! l) → is_Some (foldl getEntry_step acc xs !! l).
Proof.
  revert acc. induction xs as [|x xs IH]; intros acc Hacc; simpl; [done|].
  apply IH. unfold getEntry_step. rewrite lookup_js_set. by case_decide.
Qed.

Lemma foldl_ins_is_Some xs acc x :
  x ∈ xs → locale x ≠ "__proto__" →
  is_Some (foldl getEntry_step acc xs !! locale x).
Proof.
  intros Hx Hp. revert acc Hx. induction xs as [|y xs IH]; intros acc; simpl.
  - by intros ?%elem_of_nil.
  - intros [->|Hx]%elem_of_cons; [|by apply IH].
    apply foldl_ins_is_Some_acc. unfold getEntry_step.
    by rewrite lookup_js_set, decide_True.
Qed.

Lemma getEntry_sorted_elem ns k localeArray db x :
  x ∈ merge_sort locale_le
        (List.filter (getEntry_filter ns k localeArray) db)
  ↔ x ∈ db ∧ getEntry_filter ns k localeArray x = true.
Proof. by rewrite merge_sort_Permutation, elem_of_filter_bool. Qed.

Lemma getEntry_filter_true ns k localeArray d :
  getEntry_filter ns k localeArray d = true ↔
  namespace d = ns ∧ key d = k ∧ locale d ∈ localeArray ∧ isActive d = true.
Proof.
  unfold getEntry_filter.
  rewrite !andb_true_iff, !String.eqb_eq, inb_true. tauto.
Qed.

(** Under the unique index, [getEntry] answers for a requested locale
    with the view of the active record of the triple. *)
Lemma getEntry_lookup_Some ns k localeArray db d :
  unique_index db → d ∈ db →
  namespace d = ns → key d = k → locale d ∈ localeArray →
  locale d ≠ "__proto__" →
  isActive d = true →
  getEntry ns k localeArray db !! locale d = Some (view d).
Proof.
  intros Hdb Hd Hns Hk Hl Hp Hon. unfold getEntry.
  set (xs := merge_sort locale_le _).
  assert (Hin : d ∈ xs).
  { apply getEntry_sorted_elem. split; [done|].
    by apply getEntry_filter_true. }
  destruct (foldl_ins_is_Some xs ∅ d Hin Hp) as [e He]. rewrite He.
  apply foldl_ins_Some_inv in He as [(x & Hx & Hxl & _ & ->)|He];
    [|by rewrite lookup_empty in He].
  apply getEntry_sorted_elem in Hx as [Hx Hf].
  apply getEntry_filter_true in Hf as (Hxns & Hxk & _).
  assert (x = d) as ->; [|done].
  eapply unique_index_eq; [done..|]. unfold ident. congruence.
Qed.

Lemma getEntry_lookup_None ns k localeArray db l :
  (∀ d, d ∈ db → ident d = (ns, k, l) → isActive d = false) →
  getEntry ns k localeArray db !! l = None.
Proof.
  intros Hoff. unfold getEntry.
  destruct (foldl getEntry_step ∅ _ !! l) as [e|] eqn:He; [|done].
  apply foldl_ins_Some_inv in He as [(x & Hx & Hxl & _ & ->)|He];
    [|by rewrite lookup_empty in He].
  apply getEntry_sorted_elem in Hx as [Hx Hf].
  apply getEntry_filter_true in Hf as (Hxns & Hxk & _ & Hon).
  rewrite (Hoff x Hx) in Hon; [done|]. unfold ident. congruence.
Qed.

(** The answer never has an own property named [__proto__]. *)
Lemma getEntry_lookup_proto ns k localeArray db :
  getEntry ns k localeArray db !! "__proto__" = None.
Proof.
  unfold getEntry.
  destruct (foldl getEntry_step ∅ _ !! "__proto__") as [e|] eqn:He; [|done].
  apply foldl_ins_Some_inv in He as [(x & _ & _ & Hp & _)|He]; [done|].
  by rewrite lookup_empty in He.
Qed.
End GetEntry.

(** *** POST /api/i18n/keys followed by GET /api/i18n/:namespace/:key *)

(** C6 (amended). [upsert] creates the record of the triple, or writes
    the given value into the existing one, and in both cases leaves it
    with [status = draft] whatever its status was; [isActive] is [true]
    on a created record and is left as it was on an existing one. A
    [getEntry] right after the upsert, asking for that locale, answers
    with exactly that value and [status = draft] when the record is
    active and the locale is not the property name [__proto__], and has
    no answer for the locale when the record is not active. *)
Theorem upsert_then_getEntry ns k l v ctx vars by_ now db :
  unique_index db →
  let db' := (upsert ns k l v ctx vars by_ now db).1 in
  let d' := (upsert ns k l v ctx vars by_ now db).2 in
  findOne (by_ident ns k l) db' = Some d'
  ∧ value d' = v ∧ status d' = "draft"
  ∧ isActive d' = match findOne (by_ident ns k l) db with
                  | Some d => isActive d
                  | None => true
                  end
  ∧ ∀ localeArray, l ∈ localeArray →
      (l ≠ "__proto__" → isActive d' = true →
         ∃ e, getEntry ns k localeArray db' !! l = Some e
              ∧ e_value e = v ∧ e_status e = "draft")
      ∧ (isActive d' = false → getEntry ns k localeArray db' !! l = None).
Proof.
  intros Hdb.
  pose proof (upsert_unique_index ns k l v ctx vars by_ now db Hdb) as Hdb'.
  revert Hdb'. unfold upsert, findOne.
  set (u := upsert_update ns k l v ctx vars by_ now).
  set (new := upsert_insert ns k l v ctx vars by_ now).
  assert (Hget : ∀ db' d', unique_index db' → d' ∈ db' →
            ident d' = (ns, k, l) → value d' = v → status d' = "draft" →
            ∀ localeArray, l ∈ localeArray →
              (l ≠ "__proto__" → isActive d' = true →
                 ∃ e, getEntry ns k localeArray db' !! l = Some e
                      ∧ e_value e = v ∧ e_status e = "draft")
              ∧ (isActive d' = false →
                 getEntry ns k localeArray db' !! l = None)).
  { intros db' d' Hdb' Hin [= Hns Hk Hl] Hv Hst localeArray Hreq. split.
    - intros Hp Hon. exists (view d'). split; [|done].
      rewrite <- Hl. apply getEntry_lookup_Some; try done; by rewrite Hl.
    - intros Hoff. apply getEntry_lookup_None. intros x Hx Hid.
      assert (x = d') as ->; [|done].
      eapply unique_index_eq; [done..|]. rewrite Hid. unfold ident.
      congruence. }
  destruct (List.find (by_ident ns k l) db) as [d|] eqn:Hfind.
  - apply findOneAndUpdate_some with (u := u) in Hfind
      as (pre & post & -> & Hpre & Hd & Heq).
    rewrite Heq. simpl. intros Hdb'. split_and!; [|done..|].
    + eapply find_first; [done|by apply by_ident_true|done].
    + apply (Hget _ (u d)); try done. apply elem_of_app. right. by left.
  - rewrite findOneAndUpdate_none by done. simpl. intros Hdb'.
    split_and!; [|done..|].
    + eapply find_first; [done|by apply by_ident_true|].
      by apply find_none_inv.
    + apply (Hget _ new); try done. apply elem_of_app. right. by left.
Qed.

Lemma upsert_then_getEntry_witness :
  unique_index Sample.published_db
  ∧ ∃ e, getEntry "ui" "k1" ["en"; "fr"]
           (upsert "ui" "k1" "en" "Hello" None [] "carol" 4
              Sample.published_db).1 !! "en" = Some e
         ∧ e_value e = "Hello" ∧ e_status e = "draft".
Proof.
  assert (Hdb : unique_index Sample.published_db).
  { unfold unique_index. simpl. apply NoDup_singleton. }
  split; [exact Hdb|].
  destruct (upsert_then_getEntry "ui" "k1" "en" "Hello" None [] "carol" 4
              Sample.published_db Hdb) as (_ & _ & _ & _ & Hget).
  destruct (Hget ["en"; "fr"]) as [Hon _]; [by left|].
  apply Hon; [discriminate|reflexivity].
Defined.

(** An archived record that is upserted again stays inactive, and
    [getEntry], which only reads active records, does not return it. *)
Lemma upsert_then_getEntry_misses_inactive :
  ¬ AsStated.upsert_then_getEntry_returns.
Proof.
  intros H.
  destruct (H "ui" "k1" "en" "Hello" None [] "alice" 7 [Sample.archived_doc])
    as (e & He & _).
  - unfold unique_index. simpl. apply NoDup_singleton.
  - vm_compute in He. discriminate He.
Qed.

(** A record stored under the locale [__proto__] is active, and
    [getEntry] asked for that locale answers with an empty object. *)
Example getEntry_proto_locale :
  let db' := (upsert "ui" "k1" "__proto__" "Hi" None [] "alice" 0 []).1 in
  (∃ d, findOne (by_ident "ui" "k1" "__proto__") db' = Some d
        ∧ isActive d = true)
  ∧ getEntry "ui" "k1" ["__proto__"] db' = ∅.
Proof. split; [by eexists|]. vm_compute. reflexivity. Qed.

(** *** [metadata.publishedAt] under the routes and the save hook *)

Lemma publishedAt_of_pointwise (R : t → t → Prop) ns k l db db' :
  Forall2 R db db' →
  (∀ x y, R x y → ident y = ident x
                  ∧ publishedAt (metadata y) = publishedAt (metadata x)) →
  publishedAt_of ns k l db' = publishedAt_of ns k l db.
Proof.
  intros HR Hpres. unfold publishedAt_of, findOne.
  pose proof (find_Forall2 R (by_ident ns k l) db db' HR) as Hfind.
  destruct (List.find (by_ident ns k l) db) as [d|],
           (List.find (by_ident ns k l) db') as [d'|];
    try (exfalso; apply Hfind; intros x y Hxy;
         apply by_ident_same, Hpres, Hxy); [|done].
  apply Hpres, Hfind. intros x y Hxy. apply by_ident_same, Hpres, Hxy.
Qed.

Lemma publishedAt_of_snoc ns k l db new :
  publishedAt (metadata new) = None →
  publishedAt_of ns k l (db ++ [new]) = publishedAt_of ns k l db.
Proof.
  intros Hnew. unfold publishedAt_of, findOne.
  induction db as [|d db IH]; simpl.
  - by destruct (by_ident ns k l new).
  - by destruct (by_ident ns k l d).
Qed.

Lemma upsert_publishedAt_of ns k l v ctx vars by_ now db n k' l' :
  publishedAt_of n k' l' (upsert ns k l v ctx vars by_ now db).1
  = publishedAt_of n k' l' db.
Proof.
  unfold upsert.
  pose proof (findOneAndUpdate_pointwise (by_ident ns k l)
                (upsert_update ns k l v ctx vars by_ now) db) as Hpw.
  destruct (findOneAndUpdate _ _ db) as [db' [d'|]] eqn:Heq; simpl in *.
  - eapply publishedAt_of_pointwise; [exact Hpw|].
    intros x y [->|[Hx ->]]; [done|].
    split; [by apply upsert_update_ident|done].
  - by apply publishedAt_of_snoc.
Qed.

Lemma postKeys_publishedAt_of ns k translations ctx vars by_ now db n k' l' :
  publishedAt_of n k' l' (postKeys ns k translations ctx vars by_ now db).1
  = publishedAt_of n k' l' db.
Proof.
  unfold postKeys.
  match goal with |- context [foldl ?f _ _] => set (step := f) end.
  enough (∀ acc, publishedAt_of n k' l' (foldl step acc translations).1
                 = publishedAt_of n k' l' acc.1) as H by apply H.
  induction translations as [|[l v] translations IH]; intros [db0 rs];
    simpl in *; [done|].
  rewrite IH. unfold step. simpl.
  pose proof (upsert_publishedAt_of ns k l v ctx (default [] vars)
                (default "system" by_) now db0 n k' l') as Hstep.
  by destruct (upsert ns k l v ctx (default [] vars) (default "system" by_)
                 now db0).
Qed.

Lemma updateEntry_publishedAt_of ns k l p now db n k' l' :
  publishedAt_of n k' l' (updateEntry ns k l p now db).1
  = publishedAt_of n k' l' db.
Proof.
  unfold updateEntry.
  eapply publishedAt_of_pointwise; [apply findOneAndUpdate_pointwise|].
  by intros x y [->|[_ ->]].
Qed.

Lemma publish_publishedAt_of ns keys by_ now db n k l d :
  findOne (by_ident n k l) db = Some d →
  publishedAt_of n k l (publish ns keys by_ now db).1
  = if publish_filter ns keys d then Some now else publishedAt (metadata d).
Proof.
  unfold publishedAt_of, findOne, publish, updateMany. simpl. intros Hd.
  rewrite find_map, Hd; simpl.
  - by destruct (publish_filter ns keys d).
  - intros x. apply by_ident_same. by destruct (publish_filter ns keys x).
Qed.

(** C2 (amended). The upsert and update-entry routes never write
    [publishedAt]. The publish route stamps [publishedAt] with the time of
    the request on every entry it takes from [draft] or [reviewed] to
    [published] (also on an entry that carried an earlier timestamp), and
    leaves the timestamp of every other entry, in particular of an entry
    that is already [published], as it is. The save hook writes
    [publishedAt] only when the status is [published] and no timestamp is
    stored. *)
Theorem publishedAt_stamping :
  (∀ ns k translations ctx vars by_ now db n k' l',
      publishedAt_of n k' l'
        (handle (PostKeys ns k translations ctx vars by_) now db)
      = publishedAt_of n k' l' db)
  ∧ (∀ ns k l p now db n k' l',
      publishedAt_of n k' l' (handle (PutEntry ns k l p) now db)
      = publishedAt_of n k' l' db)
  ∧ (∀ ns keys by_ now db n k l d,
      findOne (by_ident n k l) db = Some d →
      let after := publishedAt_of n k l (handle (PostPublish ns keys by_) now db) in
      (publishable ns keys d → after = Some now)
      ∧ (¬ publishable ns keys d → after = publishedAt (metadata d))
      ∧ (status d = "published" → after = publishedAt (metadata d)))
  ∧ (∀ now d,
      publishedAt (metadata (pre_save now d))
      = match publishedAt (metadata d) with
        | Some at_ => Some at_
        | None => if status d === "published" then Some now else None
        end).
Proof.
  split_and!.
  - intros. apply postKeys_publishedAt_of.
  - intros. apply updateEntry_publishedAt_of.
  - intros ns keys by_ now db n k l d Hd after. subst after. unfold handle.
    rewrite (publish_publishedAt_of _ _ _ _ _ _ _ _ _ Hd). split_and!.
    + by intros ->%publish_filter_true.
    + by intros ->%publish_filter_false.
    + intros Hst. assert (publish_filter ns keys d = false) as ->; [|done].
      apply publish_filter_false. intros (_ & _ & [H|H]); congruence.
  - intros now d. unfold pre_save. simpl.
    destruct (publishedAt (metadata d)) as [at_|] eqn:Hp; simpl.
    + by rewrite andb_false_r.
    + rewrite andb_true_r. by destruct (status d === "published").
Qed.

Lemma publishedAt_stamping_witness :
  publishedAt_of "ui" "k1" "en"
    (handle (PostPublish "ui" ["k1"] (Some "bob")) 3 Sample.published_db)
  = Some 1
  ∧ publishedAt_of "ui" "k1" "en"
      (handle (PostPublish "ui" ["k1"] (Some "bob")) 3
         (run Sample.republish_trace []))
    = Some 3.
Proof.
  destruct publishedAt_stamping as (_ & _ & Hpub & _). split.
  - apply (Hpub "ui" ["k1"] (Some "bob") 3 Sample.published_db
             "ui" "k1" "en" Sample.published_doc eq_refl).
    reflexivity.
  - refine (proj1 (Hpub "ui" ["k1"] (Some "bob") 3
                     (run Sample.republish_trace []) "ui" "k1" "en" _ eq_refl) _).
    vm_compute. split_and!; [reflexivity|by left|by left].
Defined.

(** A record that was published at time 1, edited through the upsert route
    and published again at time 3 carries the timestamp 3. *)
Lemma publishedAt_rewritten_on_republish :
  ¬ AsStated.publishedAt_written_once.
Proof.
  intros H.
  specialize (H Sample.republish_trace
                (PostPublish "ui" ["k1"] (Some "bob")) 3 "ui" "k1" "en" 1
                eq_refl).
  vm_compute in H. discriminate H.
Qed.

(** The document method [publish()] stamps unconditionally as well. *)
Example publish_method_restamps :
  match Translation.publish 1 Sample.fresh_doc with
  | Some d => publishedAt ∘ metadata <$> Translation.publish 2 d
  | None => None
  end = Some (Some 2).
Proof. reflexivity. Qed.

(** *** [getMissingKeys] *)








End StoreFacts.

(* ===================================================================== *)
(** * Further properties of the routes *)
(* ===================================================================== *)

Section RouteInvariants.
Import Translation Routes.
Implicit Types (d : t) (db : list t) (f : t → bool) (u : t → t).

Lemma keeps_refl d : keeps d d.
Proof. done. Qed.

Lemma keeps_trans x y z : keeps x y → keeps y z → keeps x z.
Proof. unfold keeps. intros (-> & -> & ->) (-> & -> & ->). done. Qed.

Lemma Forall2_keeps_refl db : Forall2 keeps db db.
Proof. induction db; constructor; auto using keeps_refl. Qed.

Lemma Forall2_keeps_trans db1 db2 db3 :
  Forall2 keeps db1 db2 → Forall2 keeps db2 db3 → Forall2 keeps db1 db3.
Proof.
  intros H12. revert db3. induction H12 as [|x y l1 l2 Hxy _ IH]; intros db3 H23.
  - by inversion H23.
  - inversion H23 as [|? z ? l3 Hyz Hl]; subst. constructor; [|by apply IH].
    by eapply keeps_trans.
Qed.

Lemma grows_refl db : grows db db.
Proof.
  exists db, []. rewrite app_nil_r. split_and!; [done| |constructor].
  apply Forall2_keeps_refl.
Qed.

Lemma grows_trans db1 db2 db3 : grows db1 db2 → grows db2 db3 → grows db1 db3.
Proof.
  intros (db1' & a1 & -> & H1 & Ha1) (db2' & a2 & -> & H2 & Ha2).
  apply Forall2_app_inv_l in H2 as (x & y & Hx & Hy & ->).
  exists x, (y ++ a2). rewrite app_assoc. split_and!; [done| |].
  - by eapply Forall2_keeps_trans.
  - apply Forall_app. split; [|done].
    clear -Ha1 Hy. induction Hy as [|a b l k Hab _ IH]; [constructor|].
    inversion Ha1; subst. constructor; [|by apply IH].
    destruct Hab as (_ & -> & _). done.
Qed.

Lemma pointwise_grows (R : t → t → Prop) db db' :
  Forall2 R db db' → (∀ x y, R x y → keeps x y) → grows db db'.
Proof.
  intros HR Hk. exists db', []. rewrite app_nil_r.
  split_and!; [done| |constructor]. by eapply Forall2_impl.
Qed.

Lemma upsert_grows ns k l v ctx vars by_ now db :
  grows db (upsert ns k l v ctx vars by_ now db).1.
Proof.
  unfold upsert.
  pose proof (findOneAndUpdate_pointwise (by_ident ns k l)
                (upsert_update ns k l v ctx vars by_ now) db) as Hpw.
  destruct (List.find (by_ident ns k l) db) as [d|] eqn:Hfind.
  - apply findOneAndUpdate_some
      with (u := upsert_update ns k l v ctx vars by_ now) in Hfind
      as (pre & post & _ & _ & _ & Heq).
    rewrite Heq in *. simpl in *. eapply pointwise_grows; [exact Hpw|].
    intros x y [->|[Hx ->]]; [done|].
    split_and!; [by apply upsert_update_ident|done..].
  - rewrite findOneAndUpdate_none by done. simpl.
    exists db, [upsert_insert ns k l v ctx vars by_ now].
    split_and!; [done|apply Forall2_keeps_refl|by constructor].
Qed.

Lemma postKeys_grows ns k translations ctx vars by_ now db :
  grows db (postKeys ns k translations ctx vars by_ now db).1.
Proof.
  unfold postKeys.
  match goal with |- context [foldl ?f _ _] => set (step := f) end.
  enough (∀ acc, grows acc.1 (foldl step acc translations).1) as H by apply H.
  induction translations as [|[l v] translations IH]; intros [db0 rs];
    simpl in *; [apply grows_refl|].
  eapply grows_trans; [|apply IH]. unfold step. simpl.
  pose proof (upsert_grows ns k l v ctx (default [] vars)
                (default "system" by_) now db0) as Hstep.
  by destruct (upsert ns k l v ctx (default [] vars) (default "system" by_)
                 now db0).
Qed.

Lemma updateEntry_grows ns k l p now db :
  grows db (updateEntry ns k l p now db).1.
Proof.
  unfold updateEntry.
  eapply pointwise_grows; [apply findOneAndUpdate_pointwise|].
  by intros x y [->|[_ ->]].
Qed.

Lemma publish_grows ns keys by_ now db :
  grows db (publish ns keys by_ now db).1.
Proof.
  unfold publish.
  eapply pointwise_grows; [apply updateMany_pointwise|].
  intros x y ->. by destruct (publish_filter ns keys x).
Qed.

Lemma handle_grows r now db : grows db (handle r now db).
Proof.
  destruct r; unfold handle.
  - apply postKeys_grows.
  - apply updateEntry_grows.
  - apply publish_grows.
Qed.

Lemma grows_active db db' :
  grows db db' →
  Forall (λ d, isActive d = true) db → Forall (λ d, isActive d = true) db'.
Proof.
  intros (db1 & added & -> & Hk & Hadd) Hact. apply Forall_app. split; [|done].
  clear Hadd. induction Hk as [|x y l k Hxy _ IH]; [constructor|].
  inversion Hact; subst. constructor; [|by apply IH].
  destruct Hxy as (_ & -> & _). done.
Qed.

Lemma run_all_active trace db :
  Forall (λ d, isActive d = true) db →
  Forall (λ d, isActive d = true) (run trace db).
Proof.
  unfold run. revert db. induction trace as [|[r now] trace IH]; intros db Hact;
    simpl; [done|].
  apply IH. eapply grows_active; [apply handle_grows|done].
Qed.

(** X1. Whatever sequence of write requests is served, every record of
    the collection stays at its position with its index triple, its
    [isActive] flag and its [createdAt] as they were, and every record the
    sequence inserts is active: no route deletes, renames, deactivates or
    reactivates a record. *)
Theorem run_grows trace db : grows db (run trace db).
Proof.
  unfold run. revert db. induction trace as [|[r now] trace IH]; intros db;
    simpl; [apply grows_refl|].
  eapply grows_trans; [apply handle_grows|apply IH].
Qed.

(** X2. The unique [(namespace, key, locale)] index holds in the empty
    collection and after every sequence of write requests served from a
    collection in which it holds. *)
Theorem unique_index_invariant :
  unique_index []
  ∧ ∀ trace db, unique_index db → unique_index (run trace db).
Proof.
  split; [constructor|]. intros trace db. apply run_unique_index.
Qed.

Lemma unique_index_invariant_witness :
  unique_index Sample.published_db ∧ unique_index Sample.greeting_db.
Proof.
  destruct unique_index_invariant as [Hnil Hrun].
  split; apply Hrun; exact Hnil.
Defined.

(** *** One record per triple: reads after writes *)

Lemma find_snoc_miss {A} (f : A → bool) (l : list A) (x : A) :
  f x = false → List.find f (l ++ [x]) = List.find f l.
Proof.
  intros Hx. induction l as [|y l IH]; simpl; [by rewrite Hx|].
  by destruct (f y).
Qed.

Lemma findOneAndUpdate_find_other f f' u db :
  (∀ x, f x = true → f' x = false ∧ f' (u x) = false) →
  List.find f' (findOneAndUpdate f u db).1 = List.find f' db.
Proof.
  intros Hff'. induction db as [|d db IH]; simpl; [done|].
  destruct (f d) eqn:Hd; simpl.
  - destruct (Hff' d Hd) as [-> ->]. done.
  - destruct (findOneAndUpdate f u db) as [rest' r]. simpl in *.
    by destruct (f' d).
Qed.

Lemma by_ident_other ns k l n k' l' d :
  (n, k', l') ≠ (ns, k, l) →
  by_ident ns k l d = true → by_ident n k' l' d = false.
Proof.
  intros Hne Hd%by_ident_true. apply by_ident_false. congruence.
Qed.

Lemma upsert_findOne ns k l v ctx vars by_ now db :
  let r := upsert ns k l v ctx vars by_ now db in
  ∃ pre post, r.1 = pre ++ r.2 :: post
    ∧ Forall (λ x, by_ident ns k l x = false) pre
    ∧ ident r.2 = (ns, k, l) ∧ value r.2 = v ∧ status r.2 = "draft"
    ∧ variables r.2 = vars ∧ updatedAt r.2 = now
    ∧ (r.2 = upsert_insert ns k l v ctx vars by_ now
       ∨ ∃ d, d ∈ db ∧ r.2 = upsert_update ns k l v ctx vars by_ now d).
Proof.
  simpl. unfold upsert.
  destruct (List.find (by_ident ns k l) db) as [d|] eqn:Hfind.
  - pose proof (find_elem_of _ _ _ Hfind) as [Hin _].
    apply findOneAndUpdate_some
      with (u := upsert_update ns k l v ctx vars by_ now) in Hfind
      as (pre & post & -> & Hpre & Hd & Heq).
    rewrite Heq. simpl. exists pre, post. split_and!; try done.
    right. by exists d.
  - rewrite findOneAndUpdate_none by done. simpl.
    exists db, []. split_and!; try done; [by apply find_none_inv|by left].
Qed.

Lemma upsert_find ns k l v ctx vars by_ now db :
  findOne (by_ident ns k l) (upsert ns k l v ctx vars by_ now db).1
  = Some (upsert ns k l v ctx vars by_ now db).2.
Proof.
  destruct (upsert_findOne ns k l v ctx vars by_ now db)
    as (pre & post & Heq & Hpre & Hid & _).
  unfold findOne. eapply find_first; [exact Heq|by apply by_ident_true|done].
Qed.

(** X3. In a collection built from the empty one by write requests alone
    every record is active, and there an upsert followed by [getEntry] for
    a list of locales containing the upserted one answers, for that locale
    when it is not the property name [__proto__], with exactly the upserted
    value and variables and with status [draft]. *)
Theorem routes_only_upsert_then_getEntry trace ns k l v ctx vars by_ now
    (localeArray : list string) :
  let db := run trace [] in
  Forall (λ d, isActive d = true) db
  ∧ (l ∈ localeArray → l ≠ "__proto__" →
     ∃ e, getEntry ns k localeArray (upsert ns k l v ctx vars by_ now db).1 !! l
          = Some e
          ∧ e_value e = v ∧ e_status e = "draft" ∧ e_variables e = vars).
Proof.
  simpl. split; [apply run_all_active; constructor|]. intros Hl Hp.
  set (db := run trace []).
  assert (Hdb : unique_index db) by (apply run_unique_index; constructor).
  pose proof (upsert_unique_index ns k l v ctx vars by_ now db Hdb) as Hdb1.
  assert (Hact : Forall (λ d, isActive d = true)
                   (upsert ns k l v ctx vars by_ now db).1).
  { eapply grows_active; [apply upsert_grows|].
    apply run_all_active. constructor. }
  destruct (upsert_findOne ns k l v ctx vars by_ now db)
    as (pre & post & Heq & _ & [= Hns Hk Hloc] & Hv & Hst & Hvars & _).
  set (r := upsert ns k l v ctx vars by_ now db) in *.
  assert (Hin : r.2 ∈ r.1).
  { rewrite Heq. apply elem_of_app. right. by left. }
  exists (view r.2). split_and!; [|done..].
  rewrite <- Hloc. apply getEntry_lookup_Some; try done.
  - by rewrite Hloc.
  - by rewrite Hloc.
  - rewrite Forall_forall in Hact. by apply Hact.
Qed.

Lemma routes_only_upsert_then_getEntry_witness :
  ∃ e, getEntry "ui" "k1" ["en"]
         (upsert "ui" "k1" "en" "Hello" None [] "carol" 4
            (run Sample.republish_trace [])).1 !! "en" = Some e
       ∧ e_value e = "Hello" ∧ e_status e = "draft" ∧ e_variables e = [].
Proof.
  apply (routes_only_upsert_then_getEntry Sample.republish_trace
           "ui" "k1" "en" "Hello" None [] "carol" 4 ["en"]);
    [by left|discriminate].
Defined.

Lemma upsert_find_other ns k l v ctx vars by_ now n k' l' db :
  (n, k', l') ≠ (ns, k, l) →
  List.find (by_ident n k' l') (upsert ns k l v ctx vars by_ now db).1
  = List.find (by_ident n k' l') db.
Proof.
  intros Hne. unfold upsert.
  pose proof (findOneAndUpdate_find_other (by_ident ns k l)
                (by_ident n k' l')
                (upsert_update ns k l v ctx vars by_ now) db) as Hother.
  destruct (findOneAndUpdate _ _ db) as [db' [d'|]] eqn:Heq; simpl in *.
  - apply Hother. intros x Hx. split; [by eapply by_ident_other|].
    apply by_ident_false. intros Hc. apply Hne. by rewrite <- Hc.
  - apply find_snoc_miss. apply by_ident_false. intros Hc. apply Hne.
    by rewrite <- Hc.
Qed.

Lemma updateEntry_find_other ns k l p now n k' l' db :
  (n, k', l') ≠ (ns, k, l) →
  List.find (by_ident n k' l') (updateEntry ns k l p now db).1
  = List.find (by_ident n k' l') db.
Proof.
  intros Hne. unfold updateEntry. apply findOneAndUpdate_find_other.
  intros x Hx. split; [by eapply by_ident_other|].
  rewrite (by_ident_same _ _ _ x) by done. by eapply by_ident_other.
Qed.

(** X4. Each [(namespace, key, locale)] is an independent record: an
    upsert or an update of one triple leaves the record found for any other
    triple exactly as it was. *)
Theorem write_leaves_other_triples ns k l n k' l' db :
  (n, k', l') ≠ (ns, k, l) →
  (∀ v ctx vars by_ now,
      findOne (by_ident n k' l') (upsert ns k l v ctx vars by_ now db).1
      = findOne (by_ident n k' l') db)
  ∧ (∀ p now,
      findOne (by_ident n k' l') (updateEntry ns k l p now db).1
      = findOne (by_ident n k' l') db).
Proof.
  intros Hne. unfold findOne. split.
  - intros. by apply upsert_find_other.
  - intros. by apply updateEntry_find_other.
Qed.

Lemma write_leaves_other_triples_witness :
  findOne (by_ident "ui" "k1" "en")
    (upsert "ui" "k1" "fr" "Salut" None [] "carol" 4 Sample.published_db).1
  = Some Sample.published_doc.
Proof.
  rewrite (proj1 (write_leaves_other_triples "ui" "k1" "fr" "ui" "k1" "en"
                    Sample.published_db ltac:(discriminate))).
  reflexivity.
Defined.

(** X5. Under the unique index, updating an active record whose locale is
    not the property name [__proto__] and reading it back with [getEntry]
    gives the patched view: each of value, context and
    variables is the one of the patch when the patch carries it and the
    stored one otherwise, and the status is the one of the patch, or
    [draft] when the patch has none. *)
Theorem updateEntry_then_getEntry ns k l p now db d (localeArray : list string) :
  unique_index db →
  findOne (by_ident ns k l) db = Some d →
  isActive d = true →
  l ∈ localeArray →
  l ≠ "__proto__" →
  getEntry ns k localeArray (updateEntry ns k l p now db).1 !! l
  = Some {| e_value := default (value d) (p_value p);
            e_context := match p_context p with
                         | Some c => Some c
                         | None => context d
                         end;
            e_status := or_else (p_status p) "draft";
            e_variables := default (variables d) (p_variables p) |}.
Proof.
  intros Hdb Hfind Hon Hl Hp.
  pose proof (updateEntry_unique_index ns k l p now db Hdb) as Hdb1.
  unfold updateEntry, findOne in *.
  apply findOneAndUpdate_some with (u := put_update p now) in Hfind
    as (pre & post & -> & _ & [= Hns Hk Hloc]%by_ident_true & Heq).
  rewrite Heq in *. simpl in *.
  change (Some _) with (Some (view (put_update p now d))).
  rewrite <- Hloc.
  change (locale d) with (locale (put_update p now d)).
  apply getEntry_lookup_Some; try done.
  - apply elem_of_app. right. by left.
  - simpl. by rewrite Hloc.
  - simpl. by rewrite Hloc.
Qed.

Lemma updateEntry_then_getEntry_witness :
  getEntry "ui" "k1" ["en"]
    (updateEntry "ui" "k1" "en" Sample.value_only_patch 3
       Sample.published_db).1 !! "en"
  = Some {| e_value := "Hello"; e_context := None; e_status := "draft";
            e_variables := [] |}.
Proof.
  apply (updateEntry_then_getEntry "ui" "k1" "en" Sample.value_only_patch 3
           Sample.published_db Sample.published_doc ["en"]).
  - unfold unique_index. simpl. apply NoDup_singleton.
  - reflexivity.
  - reflexivity.
  - by left.
  - discriminate.
Defined.

(** *** Upserts and publication *)




(** X7. Under the unique index, an upsert withdraws the record of its
    triple from every bundle requested for a status other than [draft], the
    default [published] bundle included: an edited entry is not served until
    it is published again. *)
Theorem upsert_withdraws_from_bundles ns k l v ctx vars by_ now db
    (nss locs : list string) (st : option string) row :
  unique_index db →
  default "published" st ≠ "draft" →
  row ∈ getBundles nss locs st (upsert ns k l v ctx vars by_ now db).1 →
  row_ident row ≠ (ns, k, l).
Proof.
  intros Hdb Hst Hrow Hid.
  pose proof (upsert_unique_index ns k l v ctx vars by_ now db Hdb) as Hdb1.
  destruct (upsert_findOne ns k l v ctx vars by_ now db)
    as (pre & post & Heq & _ & Hid' & _ & Hdraft & _).
  set (r := upsert ns k l v ctx vars by_ now db) in *.
  unfold getBundles in Hrow.
  apply list_elem_of_fmap in Hrow as (x & -> & Hx).
  apply elem_of_filter_bool in Hx as [Hx Hf].
  assert (x = r.2) as ->.
  { eapply unique_index_eq; [exact Hdb1|done| |].
    - rewrite Heq. apply elem_of_app. right. by left.
    - by rewrite Hid'. }
  unfold getBundles_filter in Hf. rewrite !andb_true_iff in Hf.
  destruct Hf as [[[_ _] Hs%String.eqb_eq] _]. congruence.
Qed.

Lemma upsert_withdraws_from_bundles_witness :
  getBundles ["ui"] ["en"] None Sample.published_db
  = [select_bundles Sample.published_doc]
  ∧ ∀ row,
      row ∈ getBundles ["ui"] ["en"] None
              (upsert "ui" "k1" "en" "Hello" None [] "carol" 4
                 Sample.published_db).1 →
      row_ident row ≠ ("ui", "k1", "en").
Proof.
  split; [reflexivity|]. intros row.
  apply (upsert_withdraws_from_bundles "ui" "k1" "en" "Hello" None [] "carol" 4
           Sample.published_db ["ui"] ["en"] None row).
  - unfold unique_index. simpl. apply NoDup_singleton.
  - discriminate.
Defined.

(** X8. Publication is served: an active entry of the namespace whose key
    is among the published keys and whose status was [draft] or [reviewed]
    appears, with its value and variables, in the default ([published])
    bundle of any request that covers its namespace and locale. *)
Theorem publish_then_served ns keys publishedBy now db d
    (nss locs : list string) :
  d ∈ db →
  publishable ns keys d →
  isActive d = true →
  ns ∈ nss →
  locale d ∈ locs →
  select_bundles d
  ∈ getBundles nss locs None (publish ns keys publishedBy now db).1.
Proof.
  intros Hd Hpub Hon Hns Hloc. unfold getBundles, publish. simpl.
  set (g := λ x, if publish_filter ns keys x
                 then publish_update (default "system" publishedBy) now x
                 else x).
  apply list_elem_of_fmap. exists (g d). split.
  - unfold g. by destruct (publish_filter ns keys d).
  - apply elem_of_filter_bool. split; [by apply list_elem_of_fmap_2|].
    unfold g. apply publish_filter_true in Hpub as Hf. rewrite Hf.
    unfold getBundles_filter. simpl. destruct Hpub as (-> & _ & _).
    rewrite !andb_true_iff, !inb_true. done.
Qed.

Lemma publish_then_served_witness :
  select_bundles Sample.fresh_doc
  ∈ getBundles ["ui"; "emails"] ["en"] None
      (publish "ui" ["k1"] None 1 [Sample.fresh_doc]).1.
Proof.
  apply (publish_then_served "ui" ["k1"] None 1 [Sample.fresh_doc]
           Sample.fresh_doc ["ui"; "emails"] ["en"]).
  - by left.
  - unfold publishable. simpl. split_and!; [reflexivity|by left|by left].
  - reflexivity.
  - by left.
  - by left.
Defined.

(** *** The loop of POST /api/i18n/keys *)

Section PostKeys.
Context (ns k : string) (ctx : option string) (vars : option (list variable))
        (by_ : option string) (now : nat).

Lemma postKeys_fold translations db :
  postKeys ns k translations ctx vars by_ now db
  = foldl (postKeys_step ns k ctx vars by_ now) (db, []) translations.
Proof. done. Qed.

Lemma step_spec acc l v :
  postKeys_step ns k ctx vars by_ now acc (l, v)
  = ((upsert ns k l v ctx (default [] vars) (default "system" by_) now acc.1).1,
     acc.2 ++ [(upsert ns k l v ctx (default [] vars)
                  (default "system" by_) now acc.1).2]).
Proof.
  unfold postKeys_step. simpl.
  by destruct (upsert ns k l v ctx (default [] vars) (default "system" by_)
                 now acc.1).
Qed.

Lemma fold_results translations acc :
  map (λ d, (locale d, value d))
    (foldl (postKeys_step ns k ctx vars by_ now) acc translations).2
  = map (λ d, (locale d, value d)) acc.2 ++ translations.
Proof.
  revert acc. induction translations as [|[l v] translations IH]; intros acc;
    simpl; [by rewrite app_nil_r|].
  rewrite IH, step_spec. simpl. rewrite map_app, <- app_assoc. simpl.
  destruct (upsert_findOne ns k l v ctx (default [] vars)
              (default "system" by_) now acc.1)
    as (_ & _ & _ & _ & [= _ _ ->] & -> & _). done.
Qed.

Lemma fold_drafts translations acc :
  Forall (λ d, namespace d = ns ∧ key d = k ∧ status d = "draft") acc.2 →
  Forall (λ d, namespace d = ns ∧ key d = k ∧ status d = "draft")
    (foldl (postKeys_step ns k ctx vars by_ now) acc translations).2.
Proof.
  revert acc. induction translations as [|[l v] translations IH]; intros acc Hacc;
    simpl; [done|].
  apply IH. rewrite step_spec. simpl. apply Forall_app. split; [done|].
  constructor; [|constructor].
  destruct (upsert_findOne ns k l v ctx (default [] vars)
              (default "system" by_) now acc.1)
    as (_ & _ & _ & _ & [= -> -> _] & _ & -> & _). done.
Qed.

Lemma fold_find_other translations acc l :
  l ∉ translations.*1 →
  List.find (by_ident ns k l)
    (foldl (postKeys_step ns k ctx vars by_ now) acc translations).1
  = List.find (by_ident ns k l) acc.1.
Proof.
  revert acc. induction translations as [|[l0 v0] translations IH];
    intros acc Hl; simpl in *; [done|].
  apply not_elem_of_cons in Hl as [Hne Hl].
  rewrite IH by done. rewrite step_spec. simpl.
  apply upsert_find_other. congruence.
Qed.

Lemma fold_stored translations acc l v :
  NoDup translations.*1 → (l, v) ∈ translations →
  ∃ d, List.find (by_ident ns k l)
         (foldl (postKeys_step ns k ctx vars by_ now) acc translations).1
       = Some d
       ∧ value d = v ∧ status d = "draft".
Proof.
  revert acc. induction translations as [|[l0 v0] translations IH];
    intros acc Hnd Hin; simpl in *; [by apply elem_of_nil in Hin|].
  apply NoDup_cons in Hnd as [Hl0 Hnd].
  apply elem_of_cons in Hin as [[= -> ->]|Hin]; [|by apply IH].
  rewrite fold_find_other by done. rewrite step_spec. simpl.
  pose proof (upsert_find ns k l0 v0 ctx (default [] vars)
                (default "system" by_) now acc.1) as Hfind.
  unfold findOne in Hfind. rewrite Hfind. eexists. split; [done|].
  destruct (upsert_findOne ns k l0 v0 ctx (default [] vars)
              (default "system" by_) now acc.1)
    as (_ & _ & _ & _ & _ & -> & -> & _). done.
Qed.
End PostKeys.

(** X9. For the pairs [Object.entries(translations)] enumerates (each
    property name once; in the order of that enumeration, which puts the
    integer-like names first and need not be the order of the request
    body), the upsert route answers with one record per pair, in the order
    of the enumeration, each of the given namespace and key, carrying that
    locale and value and the status [draft]; and the collection afterwards
    holds, for every pair, the record of that triple with that value as a
    draft. *)
Theorem postKeys_results ns k translations ctx vars by_ now db :
  NoDup translations.*1 →
  let r := postKeys ns k translations ctx vars by_ now db in
  map (λ d, (locale d, value d)) r.2 = translations
  ∧ Forall (λ d, namespace d = ns ∧ key d = k ∧ status d = "draft") r.2
  ∧ (∀ l v, (l, v) ∈ translations →
       ∃ d, findOne (by_ident ns k l) r.1 = Some d
            ∧ value d = v ∧ status d = "draft").
Proof.
  intros Hnd. simpl. rewrite postKeys_fold. split_and!.
  - by rewrite fold_results.
  - by apply fold_drafts.
  - intros l v Hin. by apply fold_stored.
Qed.

Lemma postKeys_results_witness :
  ∃ d, findOne (by_ident "ui" "greeting" "ar")
         (postKeys "ui" "greeting" [("en", "Hello"); ("ar", "Marhaba")]
            None None None 0 Sample.published_db).1 = Some d
       ∧ value d = "Marhaba" ∧ status d = "draft".
Proof.
  apply (proj2 (proj2 (postKeys_results "ui" "greeting"
                         [("en", "Hello"); ("ar", "Marhaba")] None None None 0
                         Sample.published_db
                         ltac:(apply (bool_decide_unpack _); vm_compute;
                               exact I)))).
  right. by left.
Defined.

End RouteInvariants.

(* ===================================================================== *)
(** * Query strings and the bundle routes *)
(* ===================================================================== *)

Section QueryFacts.
Import Translation Routes.

Lemma split_comma_nonempty s : split_comma s ≠ [].
Proof. destruct s as [|c s]; simpl; [done|]. by destruct (Ascii.eqb c ","). Qed.

Lemma comma_free_nil : comma_free "".
Proof. unfold comma_free. simpl. apply not_elem_of_nil. Qed.

Lemma comma_free_cons c s :
  comma_free (String c s) ↔ c ≠ ","%char ∧ comma_free s.
Proof.
  unfold comma_free. simpl. rewrite not_elem_of_cons.
  split; intros [H1 H2]; (split; [congruence|done]).
Qed.

Lemma split_comma_join s : String.concat "," (split_comma s) = s.
Proof.
  induction s as [|c s IH]; simpl; [done|].
  pose proof (split_comma_nonempty s) as Hne.
  destruct (split_comma s) as [|p ps]; [done|].
  destruct (Ascii.eqb c ",") eqn:Hc.
  - apply Ascii.eqb_eq in Hc as ->. simpl in *. by rewrite IH.
  - simpl in *. destruct ps; simpl in *; by rewrite <- IH.
Qed.

Lemma split_comma_pieces s : Forall comma_free (split_comma s).
Proof.
  induction s as [|c s IH]; simpl.
  - constructor; [apply comma_free_nil|constructor].
  - destruct (Ascii.eqb c ",") eqn:Hc.
    + constructor; [apply comma_free_nil|done].
    + apply Ascii.eqb_neq in Hc.
      destruct (split_comma s) as [|p ps]; simpl.
      * constructor; [|constructor]. apply comma_free_cons.
        split; [done|apply comma_free_nil].
      * inversion IH; subst. constructor; [|done]. by apply comma_free_cons.
Qed.

Lemma split_comma_piece s t :
  comma_free s → split_comma (s ++ String "," t) = s :: split_comma t.
Proof.
  induction s as [|c s IH]; simpl; [done|].
  intros [Hc Hs]%comma_free_cons. rewrite IH by done.
  apply Ascii.eqb_neq in Hc. by rewrite Hc.
Qed.

Lemma split_comma_single s : comma_free s → split_comma s = [s].
Proof.
  induction s as [|c s IH]; simpl; [done|].
  intros [Hc Hs]%comma_free_cons. rewrite IH by done.
  apply Ascii.eqb_neq in Hc. by rewrite Hc.
Qed.

(** X10. Splitting a query string at its commas and joining the pieces
    with commas are inverse to each other: the pieces of any string are
    comma-free, there is at least one, and joined they give the string back;
    and any non-empty list of comma-free pieces is what the split of its
    join returns. *)
Theorem split_comma_inverse :
  (∀ s, String.concat "," (split_comma s) = s
        ∧ Forall comma_free (split_comma s)
        ∧ split_comma s ≠ [])
  ∧ (∀ parts, parts ≠ [] → Forall comma_free parts →
              split_comma (String.concat "," parts) = parts).
Proof.
  split.
  - intros s. split_and!;
      [apply split_comma_join|apply split_comma_pieces
      |apply split_comma_nonempty].
  - intros parts Hne Hfree. induction Hfree as [|p ps Hp Hps IH]; [done|].
    destruct ps as [|q ps].
    + simpl. by apply split_comma_single.
    + change (String.concat "," (p :: q :: ps))
        with (p ++ String "," (String.concat "," (q :: ps)))%string.
      rewrite split_comma_piece by done. by rewrite IH.
Qed.

Lemma split_comma_inverse_witness :
  split_comma "ui,emails" = ["ui"; "emails"]
  ∧ split_comma (String.concat "," [""; "en"; ""]) = [""; "en"; ""].
Proof.
  split; [reflexivity|].
  apply (proj2 split_comma_inverse [""; "en"; ""]); [discriminate|].
  repeat constructor; unfold comma_free; simpl;
    [apply not_elem_of_nil| |apply not_elem_of_nil].
  intros H. repeat (apply elem_of_cons in H as [H|H]; [discriminate H|]).
  by apply elem_of_nil in H.
Defined.

End QueryFacts.

Section BundleFacts.
Import Translation Routes.
Implicit Types (d : t) (db : list t) (rows : list bundles_row).

Lemma foldl_same {A B} (f g : A → B → A) (l : list B) (a : A) :
  (∀ a x, x ∈ l → f a x = g a x) → foldl f a l = foldl g a l.
Proof.
  revert a. induction l as [|x l IH]; intros a Hfg; simpl; [done|].
  rewrite Hfg by (by left). apply IH. intros a' y Hy. apply Hfg. by right.
Qed.

Lemma filter_same {A} (f g : A → bool) (l : list A) :
  (∀ x, x ∈ l → f x = g x) → List.filter f l = List.filter g l.
Proof.
  induction l as [|x l IH]; intros Hfg; simpl; [done|].
  rewrite (Hfg x) by (by left). rewrite IH; [done|].
  intros y Hy. apply Hfg. by right.
Qed.

Lemma fill_from_Some_inv rows (acc : gmap string string) k v :
  foldl (λ target bundle, js_set (bs_key bundle) (bs_value bundle) target)
    acc rows !! k = Some v →
  (∃ row, row ∈ rows ∧ bs_key row = k ∧ k ≠ "__proto__" ∧ bs_value row = v)
  ∨ acc !! k = Some v.
Proof.
  revert acc. induction rows as [|x rows IH]; intros acc; simpl; [by right|].
  intros [(row & Hrow & Hk & Hp & Hv)|Hacc]%IH.
  - left. exists row. split_and!; [by right|done..].
  - rewrite lookup_js_set in Hacc.
    destruct (decide (bs_key x = k ∧ k ≠ "__proto__")) as [[<- Hp]|Hne].
    + injection Hacc as <-. left. exists x. split_and!; [by left|done..].
    + by right.
Qed.

Lemma fill_from_is_Some_acc rows (acc : gmap string string) k :
  is_Some (acc !! k) →
  is_Some (foldl (λ target bundle,
                    js_set (bs_key bundle) (bs_value bundle) target)
             acc rows !! k).
Proof.
  revert acc. induction rows as [|x rows IH]; intros acc Hacc; simpl; [done|].
  apply IH. rewrite lookup_js_set. by case_decide.
Qed.

Lemma fill_keys_Some_inv rows k v :
  fill_keys rows !! k = Some v →
  ∃ row, row ∈ rows ∧ bs_key row = k ∧ k ≠ "__proto__" ∧ bs_value row = v.
Proof.
  unfold fill_keys. intros [?|H]%fill_from_Some_inv; [done|].
  by rewrite lookup_empty in H.
Qed.

Lemma fill_keys_is_Some rows row :
  row ∈ rows → bs_key row ≠ "__proto__" →
  is_Some (fill_keys rows !! bs_key row).
Proof.
  intros Hrow Hp. revert Hrow.
  unfold fill_keys. generalize (∅ : gmap string string).
  induction rows as [|x rows IH]; intros acc; simpl.
  - by intros ?%elem_of_nil.
  - intros [<-|Hrow]%elem_of_cons; [|by apply IH].
    apply fill_from_is_Some_acc. by rewrite lookup_js_set, decide_True.
Qed.

Lemma getBundles_row nss locs st db row :
  row ∈ getBundles nss locs (Some st) db
  ↔ ∃ d, d ∈ db ∧ row = select_bundles d
         ∧ namespace d ∈ nss ∧ locale d ∈ locs
         ∧ status d = st ∧ isActive d = true.
Proof.
  unfold getBundles. simpl. rewrite list_elem_of_fmap. split.
  - intros (d & -> & [Hd Hf]%elem_of_filter_bool). exists d.
    unfold getBundles_filter in Hf.
    rewrite !andb_true_iff, !inb_true, String.eqb_eq in Hf. tauto.
  - intros (d & Hd & -> & Hns & Hloc & Hst & Hon). exists d. split; [done|].
    apply elem_of_filter_bool. split; [done|]. unfold getBundles_filter.
    rewrite !andb_true_iff, !inb_true, String.eqb_eq. tauto.
Qed.

Lemma getI18n_cell namespaces locales status_ db ns loc :
  ns ∈ split_comma (default "ui,emails" namespaces) → ns ≠ "__proto__" →
  loc ∈ split_comma (default "en" locales) → loc ≠ "__proto__" →
  ∃ inner,
    getI18n namespaces locales status_ db !! ns = Some inner
    ∧ inner !! loc
      = Some (fill_keys
                (List.filter
                   (λ b, (bs_namespace b === ns) && (bs_locale b === loc))
                   (getBundles
                      (split_comma (default "ui,emails" namespaces))
                      (split_comma (default "en" locales))
                      (Some (default "published" status_)) db))).
Proof.
  intros Hns Hnp Hloc Hlp. unfold getI18n.
  set (nsArr := split_comma (default "ui,emails" namespaces)) in *.
  set (locArr := split_comma (default "en" locales)) in *.
  set (bundles := getBundles nsArr locArr _ db).
  eexists. split.
  - rewrite (foldl_js_set_by_key
               (λ namespace_, foldl (λ inner locale_, js_set locale_ _ inner)
                                ∅ locArr)).
    by rewrite decide_True.
  - rewrite (foldl_js_set_by_key
               (λ locale_, fill_keys (List.filter _ bundles))).
    by rewrite decide_True.
Qed.

(** X11. The answer of GET /api/i18n is structurally complete: its keys
    are exactly the requested namespaces, and under each of them the keys
    are exactly the requested locales, in both cases but for the property
    name [__proto__], whatever the collection holds (an empty collection
    included). *)
Theorem getI18n_structure namespaces locales status_ db :
  let result := getI18n namespaces locales status_ db in
  (∀ ns, is_Some (result !! ns)
         ↔ ns ∈ split_comma (default "ui,emails" namespaces)
           ∧ ns ≠ "__proto__")
  ∧ (∀ ns inner, result !! ns = Some inner →
       ∀ loc, is_Some (inner !! loc)
              ↔ loc ∈ split_comma (default "en" locales)
                ∧ loc ≠ "__proto__").
Proof.
  simpl. unfold getI18n.
  set (nsArr := split_comma (default "ui,emails" namespaces)).
  set (locArr := split_comma (default "en" locales)).
  set (bundles := getBundles nsArr locArr _ db).
  split.
  - intros ns.
    rewrite (foldl_js_set_by_key
               (λ namespace_, foldl (λ inner locale_, js_set locale_ _ inner)
                                ∅ locArr)).
    destruct (decide (ns ∈ nsArr ∧ ns ≠ "__proto__")); [by split; eauto|].
    rewrite lookup_empty. split; [by intros [? ?]|done].
  - intros ns inner.
    rewrite (foldl_js_set_by_key
               (λ namespace_, foldl (λ inner locale_, js_set locale_ _ inner)
                                ∅ locArr)).
    destruct (decide (ns ∈ nsArr ∧ ns ≠ "__proto__"));
      [|by rewrite lookup_empty].
    intros [= <-] loc.
    rewrite (foldl_js_set_by_key
               (λ locale_, fill_keys (List.filter _ bundles))).
    destruct (decide (loc ∈ locArr ∧ loc ≠ "__proto__")); [by split; eauto|].
    rewrite lookup_empty. split; [by intros [? ?]|done].
Qed.

Lemma getI18n_structure_witness :
  is_Some (getI18n (Some "ui") (Some "en,__proto__,fr") None [] !! "ui")
  ∧ ∀ inner,
      getI18n (Some "ui") (Some "en,__proto__,fr") None [] !! "ui" = Some inner →
      is_Some (inner !! "fr") ∧ inner !! "__proto__" = None.
Proof.
  destruct (getI18n_structure (Some "ui") (Some "en,__proto__,fr") None [])
    as [Hns Hloc].
  split.
  - apply Hns. simpl. split; [by left|discriminate].
  - intros inner Hinner. split.
    + apply (Hloc "ui" inner Hinner "fr"). simpl.
      split; [|discriminate]. right. right. by left.
    + apply eq_None_not_Some. intros H.
      by apply (Hloc "ui" inner Hinner "__proto__") in H as [_ ?].
Defined.

Lemma bundle_cell_lookup (nss locs : list string) st db ns loc k v :
  unique_index db → ns ∈ nss → loc ∈ locs →
  (fill_keys
     (List.filter (λ b, (bs_namespace b === ns) && (bs_locale b === loc))
        (getBundles nss locs (Some st) db)) !! k = Some v
   ↔ k ≠ "__proto__"
     ∧ ∃ d, d ∈ db ∧ ident d = (ns, k, loc) ∧ isActive d = true
            ∧ status d = st ∧ value d = v).
Proof.
  intros Hdb Hns Hloc. set (bundles := getBundles nss locs (Some st) db).
  assert (Hrows : ∀ row,
            row ∈ List.filter
                    (λ b, (bs_namespace b === ns) && (bs_locale b === loc))
                    bundles
            ↔ ∃ d, d ∈ db ∧ row = select_bundles d ∧ namespace d = ns
                   ∧ locale d = loc ∧ status d = st ∧ isActive d = true).
  { intros row. rewrite elem_of_filter_bool. unfold bundles.
    rewrite getBundles_row, andb_true_iff, !String.eqb_eq. split.
    - intros [(d & Hd & -> & _ & _ & Hst & Hon) [Hn Hl]]. exists d.
      simpl in *. tauto.
    - intros (d & Hd & -> & <- & <- & Hst & Hon). split; [|done].
      exists d. tauto. }
  assert (Hfwd : ∀ v', fill_keys (List.filter
                         (λ b, (bs_namespace b === ns) && (bs_locale b === loc))
                         bundles) !! k = Some v' →
            k ≠ "__proto__"
            ∧ ∃ d, d ∈ db ∧ ident d = (ns, k, loc) ∧ isActive d = true
                   ∧ status d = st ∧ value d = v').
  { intros v' (row & Hrow & Hk & Hp & Hv)%fill_keys_Some_inv.
    apply Hrows in Hrow as (d & Hd & -> & Hn & Hl & Hst & Hon).
    split; [done|].
    exists d. simpl in *. unfold ident. split_and!; [done| |done..].
    congruence. }
  split; [apply Hfwd|].
  intros (Hp & d & Hd & Hid & Hon & Hst & Hv). injection Hid as Hn Hk Hl.
  assert (Hrow : select_bundles d
                 ∈ List.filter (λ b, (bs_namespace b === ns)
                                     && (bs_locale b === loc)) bundles).
  { apply Hrows. exists d. tauto. }
  destruct (fill_keys_is_Some _ _ Hrow) as [v' Hv'];
    [simpl; by rewrite Hk|]. simpl in Hv'.
  rewrite Hk in Hv'. rewrite Hv'. f_equal.
  destruct (Hfwd v' Hv') as (_ & d' & Hd' & Hid' & _ & _ & <-).
  rewrite <- Hv. f_equal.
  eapply unique_index_eq; [done..|]. rewrite Hid'. unfold ident. congruence.
Qed.

(** X12. Under the unique index, the answer of GET /api/i18n holds, under
    a namespace and a locale it lists, exactly the key/value pairs of the
    active records of that namespace and locale whose status is the
    requested one ([published] by default) and whose key is not the
    property name [__proto__]. *)
Theorem getI18n_content namespaces locales status_ db ns loc inner m k v :
  unique_index db →
  getI18n namespaces locales status_ db !! ns = Some inner →
  inner !! loc = Some m →
  (m !! k = Some v
   ↔ k ≠ "__proto__"
     ∧ ∃ d, d ∈ db ∧ ident d = (ns, k, loc) ∧ isActive d = true
            ∧ status d = default "published" status_ ∧ value d = v).
Proof.
  intros Hdb. unfold getI18n.
  set (nsArr := split_comma (default "ui,emails" namespaces)).
  set (locArr := split_comma (default "en" locales)).
  set (st := default "published" status_).
  set (bundles := getBundles nsArr locArr (Some st) db).
  rewrite (foldl_js_set_by_key
             (λ namespace_, foldl (λ inner locale_, js_set locale_ _ inner)
                              ∅ locArr)).
  destruct (decide (ns ∈ nsArr ∧ ns ≠ "__proto__")) as [[Hns _]|];
    [|by rewrite lookup_empty].
  intros [= <-].
  rewrite (foldl_js_set_by_key (λ locale_, fill_keys (List.filter _ bundles))).
  destruct (decide (loc ∈ locArr ∧ loc ≠ "__proto__")) as [[Hloc _]|];
    [|by rewrite lookup_empty].
  intros [= <-]. by apply bundle_cell_lookup.
Qed.

Lemma getI18n_content_witness :
  ∃ inner m, getI18n (Some "ui") None None Sample.published_db !! "ui"
             = Some inner
    ∧ inner !! "en" = Some m
    ∧ m !! "k1" = Some "Hi".
Proof.
  exists {[ "en" := {[ "k1" := "Hi" ]} ]}, {[ "k1" := "Hi" ]}.
  assert (H1 : getI18n (Some "ui") None None Sample.published_db !! "ui"
               = Some {[ "en" := {[ "k1" := "Hi" ]} ]})
    by (vm_compute; reflexivity).
  assert (H2 : ({[ "en" := {[ "k1" := "Hi" ]} ]}
                  : gmap string (gmap string string)) !! "en"
               = Some {[ "k1" := "Hi" ]})
    by (vm_compute; reflexivity).
  split_and!; [exact H1|exact H2|].
  apply (proj2 (getI18n_content (Some "ui") None None Sample.published_db
                  "ui" "en" _ _ "k1" "Hi"
                  ltac:(unfold unique_index; simpl; apply NoDup_singleton)
                  H1 H2)).
  split; [discriminate|].
  exists Sample.published_doc. split_and!; [by left|reflexivity..].
Defined.

(** X13. For a namespace without a comma that is not the property name
    [__proto__], GET /api/i18n asked for that one namespace answers with
    one entry, which is the answer of GET /api/i18n/:namespace for the same
    locales and status. *)
Theorem getI18n_single_namespace ns locales status_ db :
  comma_free ns →
  ns ≠ "__proto__" →
  getI18n (Some ns) locales status_ db
  = {[ ns := getI18nNamespace ns locales status_ db ]}.
Proof.
  intros Hns Hp. unfold getI18n, getI18nNamespace. simpl.
  rewrite (split_comma_single ns Hns). simpl. unfold js_set at 1.
  destruct (String.eqb_spec ns "__proto__") as [|_]; [done|].
  rewrite insert_empty. f_equal.
  apply foldl_same. intros inner loc _. f_equal. f_equal.
  apply filter_same. intros row Hrow.
  apply getBundles_row in Hrow as (d & _ & -> & Hn & _).
  apply list_elem_of_singleton in Hn. simpl. rewrite Hn.
  by rewrite String.eqb_refl.
Qed.

Lemma getI18n_single_namespace_witness :
  getI18n (Some "ui") (Some "en,fr") None Sample.greeting_db
  = {[ "ui" := getI18nNamespace "ui" (Some "en,fr") None Sample.greeting_db ]}.
Proof.
  apply (getI18n_single_namespace "ui" (Some "en,fr") None Sample.greeting_db);
    [|discriminate].
  unfold comma_free. simpl. intros H.
  repeat (apply elem_of_cons in H as [H|H]; [discriminate H|]).
  by apply elem_of_nil in H.
Defined.

(** Asked for the namespace [__proto__], GET /api/i18n answers with an
    empty object, while GET /api/i18n/:namespace lists the locales. *)
Example getI18n_proto_namespace :
  getI18n (Some "__proto__") None None [] = ∅
  ∧ getI18nNamespace "__proto__" None None [] = {[ "en" := ∅ ]}.
Proof. split; vm_compute; reflexivity. Qed.

End BundleFacts.

(* ===================================================================== *)
(** * Statistics and document methods *)
(* ===================================================================== *)

Section StatsFacts.
Import Translation Routes.
Implicit Types (d : t) (db docs : list t).

Lemma filter_length_reflect {A} (f : A → bool) (P : A → Prop)
    `{!∀ x, Decision (P x)} (l : list A) :
  (∀ x, f x = true ↔ P x) →
  List.length (List.filter f l) = List.length (filter P l).
Proof.
  intros Hf. induction l as [|x l IH]; simpl; [done|]. rewrite filter_cons.
  destruct (f x) eqn:Hx.
  - rewrite decide_True by (by apply Hf). simpl. by rewrite IH.
  - rewrite decide_False; [done|]. intros HP%Hf. congruence.
Qed.

Lemma filter_filter_andb {A} (f g : A → bool) (l : list A) :
  List.filter f (List.filter g l) = List.filter (λ x, g x && f x) l.
Proof.
  induction l as [|x l IH]; simpl; [done|].
  destruct (g x); simpl; [destruct (f x)|]; by rewrite IH.
Qed.

Lemma count_by_status_count docs s :
  default 0 (count_by_status docs !! s)
  = List.length (List.filter (λ d, status d === s) docs).
Proof.
  induction docs as [|d docs IH]; simpl; [by rewrite lookup_empty|].
  destruct (status d === s) eqn:Hs.
  - apply String.eqb_eq in Hs as <-. rewrite lookup_insert_eq. simpl.
    by rewrite IH.
  - apply String.eqb_neq in Hs. by rewrite lookup_insert_ne.
Qed.

Lemma count_by_status_positive docs s n :
  count_by_status docs !! s = Some n → n ≠ 0.
Proof.
  revert n. induction docs as [|d docs IH]; intros n; simpl;
    [by rewrite lookup_empty|].
  destruct (decide (status d = s)) as [<-|Hne].
  - rewrite lookup_insert_eq. by intros [= <-].
  - rewrite lookup_insert_ne by done. apply IH.
Qed.

Lemma count_by_status_total docs :
  map_fold (λ _ c acc, c + acc) 0 (count_by_status docs) = List.length docs.
Proof.
  assert (Hcomm : ∀ (m : gmap string nat) (j1 j2 : string) (z1 z2 y : nat),
             j1 ≠ j2 → m !! j1 = Some z1 → m !! j2 = Some z2 →
             z1 + (z2 + y) = z2 + (z1 + y)) by (intros; lia).
  induction docs as [|d docs IH]; simpl; [by rewrite map_fold_empty|].
  set (m := count_by_status docs) in *. set (s := status d).
  destruct (m !! s) as [c|] eqn:Hc; simpl.
  - rewrite <- insert_delete_eq.
    rewrite map_fold_insert_L; [|by eauto|by rewrite lookup_delete_eq].
    rewrite <- IH.
    rewrite (map_fold_delete_L _ _ s c m); [lia|by eauto|done].
  - rewrite map_fold_insert_L; [|by eauto|done]. by rewrite IH.
Qed.

(** X14. [getTranslationStats] has a row for a status exactly when some
    active record of the namespace and locale has that status, and the
    count of the row is the number of those records; no row has count 0. *)
Theorem getTranslationStats_counts ns loc db s n :
  getTranslationStats ns loc db !! s = Some n
  ↔ n ≠ 0
    ∧ n = List.length
            (filter (λ d, namespace d = ns ∧ locale d = loc
                          ∧ isActive d = true ∧ status d = s) db).
Proof.
  unfold getTranslationStats.
  set (docs := List.filter (stats_match ns loc) db).
  assert (Hcount : default 0 (count_by_status docs !! s)
                   = List.length
                       (filter (λ d, namespace d = ns ∧ locale d = loc
                                     ∧ isActive d = true ∧ status d = s) db)).
  { rewrite count_by_status_count. unfold docs. rewrite filter_filter_andb.
    apply filter_length_reflect. intros d. unfold stats_match.
    rewrite !andb_true_iff, !String.eqb_eq. tauto. }
  rewrite <- Hcount. split.
  - intros Hn. rewrite Hn. simpl. split; [|done].
    by eapply count_by_status_positive.
  - intros [Hn0 Hn]. destruct (count_by_status docs !! s) as [c|]; simpl in *;
      congruence.
Qed.

Lemma getTranslationStats_counts_witness :
  getTranslationStats "ui" "en" Sample.greeting_db !! "published" = Some 1
  ∧ getTranslationStats "ui" "en" Sample.greeting_db !! "draft" = None.
Proof.
  split; [|vm_compute; reflexivity].
  apply (proj2 (getTranslationStats_counts "ui" "en" Sample.greeting_db
                  "published" 1)).
  split; [discriminate|vm_compute; reflexivity].
Defined.

(** X15. The counts of [getTranslationStats] add up to the number of
    active records of the namespace and locale: every such record is
    counted under exactly one status. *)
Theorem getTranslationStats_total ns loc db :
  map_fold (λ _ c acc, c + acc) 0 (getTranslationStats ns loc db)
  = List.length
      (filter (λ d, namespace d = ns ∧ locale d = loc ∧ isActive d = true) db).
Proof.
  unfold getTranslationStats. rewrite count_by_status_total.
  apply filter_length_reflect. intros d. unfold stats_match.
  rewrite !andb_true_iff, !String.eqb_eq. tauto.
Qed.

(** *** Document methods *)

Lemma call_isActive m now d d' :
  call m now d = Some d' → isActive d' = true → isActive d = true.
Proof.
  destruct m;
    unfold call, Translation.publish, Translation.archive, Translation.review,
      save; cbv zeta;
    (case_match; [|done]); intros [= <-]; simpl; done.
Qed.

Lemma stored_after_isActive m now d :
  isActive (stored_after m now d) = true → isActive d = true.
Proof.
  unfold stored_after. destruct (call m now d) as [d'|] eqn:Hc; simpl; [|done].
  by apply (call_isActive _ _ _ _ Hc).
Qed.

(** X16. No document method reactivates a record: after any sequence of
    [publish()], [archive()] and [review()] calls, each stored when its
    [save()] is accepted and leaving the record as it was when it is
    rejected, an inactive document is still inactive, whatever status the
    calls leave it with, and it is served by no [getBundles] request; in
    particular a document is never served again once [archive()] has been
    stored for it. *)
Theorem methods_never_reactivate (calls : list (method * nat)) d
    (pre post : list t) nss locs st :
  isActive d = false →
  let d' := foldl (λ acc mn, stored_after mn.1 mn.2 acc) d calls in
  isActive d' = false
  ∧ getBundles nss locs st (pre ++ d' :: post)
    = getBundles nss locs st (pre ++ post).
Proof.
  intros Hoff. simpl.
  assert (Hoff' : isActive (foldl (λ acc mn, stored_after mn.1 mn.2 acc) d calls)
                  = false).
  { revert d Hoff. induction calls as [|[m now] calls IH]; intros d Hoff;
      simpl; [done|].
    apply IH. destruct (isActive (stored_after m now d)) eqn:Hon; [|done].
    apply stored_after_isActive in Hon. congruence. }
  split; [done|]. unfold getBundles. rewrite !List.filter_app. simpl.
  unfold getBundles_filter at 2. by rewrite Hoff', andb_false_r.
Qed.

Lemma methods_never_reactivate_witness :
  (call (Review "dana") 6 Sample.archived_doc ≫= call Publish 8)
  = Some (stored_after Publish 8
            (stored_after (Review "dana") 6 Sample.archived_doc))
  ∧ status (stored_after Publish 8
              (stored_after (Review "dana") 6 Sample.archived_doc))
    = "published"
  ∧ getBundles ["ui"] ["en"] None
      [stored_after Publish 8
         (stored_after (Review "dana") 6 Sample.archived_doc)] = [].
Proof.
  split_and!; [reflexivity..|].
  apply (proj2 (methods_never_reactivate [(Review "dana", 6); (Publish, 8)]
                  Sample.archived_doc [] [] ["ui"] ["en"] None eq_refl)).
Defined.

End StatsFacts.

(* ===================================================================== *)
(** * Further properties of glossary terms *)
(* ===================================================================== *)

Section GlossaryMethods.
Import Glossary.
Implicit Types (g : Glossary.t) (ts : list translation).

Lemma find_filter_implied {A} (f h : A → bool) (l : list A) :
  (∀ x, f x = true → h x = true) →
  List.find f (List.filter h l) = List.find f l.
Proof.
  intros Hfh. induction l as [|x l IH]; simpl; [done|].
  destruct (h x) eqn:Hh; simpl.
  - by destruct (f x).
  - destruct (f x) eqn:Hf; [|done]. apply Hfh in Hf. congruence.
Qed.

Lemma find_app_found {A} (f : A → bool) (l l' : list A) x :
  List.find f l = Some x → List.find f (l ++ l') = Some x.
Proof.
  induction l as [|y l IH]; simpl; [done|]. by destruct (f y).
Qed.

Lemma unmark_locale loc t : locale (unmark_unless loc t) = locale t.
Proof. unfold unmark_unless. by destruct (negb (locale t === loc)). Qed.

Lemma unmark_value loc t : value (unmark_unless loc t) = value t.
Proof. unfold unmark_unless. by destruct (negb (locale t === loc)). Qed.

Lemma kept_no_locale loc ts :
  Forall (λ t, (locale t === loc) = false)
    (List.filter (λ t, negb (locale t === loc)) ts).
Proof.
  eapply Forall_impl; [apply kept_locale_ne|].
  intros x Hx. by apply String.eqb_neq.
Qed.

(** X17. A translation that was just added is the one resolved for its
    locale: [getTranslation] for the locale given to [addTranslation]
    returns the value given to it, whatever the term held before and
    whether or not the new entry is preferred. *)
Theorem addTranslation_then_getTranslation g loc val ctx pref now :
  getTranslation (addTranslation loc val ctx pref now g) loc = val.
Proof.
  unfold getTranslation, addTranslation. simpl. unfold addTranslation_list.
  set (kept := List.filter (λ t, negb (locale t === loc)) (translations g)).
  assert (Hkept : Forall (λ t, (locale t === loc) = false) kept)
    by apply kept_no_locale.
  assert (Hplain : ∀ b,
            List.find (λ t, locale t === loc)
              (kept ++ [mkTranslation loc val (default "" ctx) b])
            = Some (mkTranslation loc val (default "" ctx) b)).
  { intros b. eapply find_first; [done| |done]. simpl. apply String.eqb_refl. }
  destruct pref as [[|]|]; simpl; [|by rewrite Hplain..].
  rewrite find_map by (intros y; by rewrite unmark_locale).
  rewrite Hplain. simpl. by rewrite unmark_value.
Qed.

(** X18. Adding a translation for one locale does not change what is
    resolved for another locale that has an entry of its own. *)
Theorem addTranslation_keeps_other_locales g loc val ctx pref now loc' :
  loc' ≠ loc →
  (∃ e, e ∈ translations g ∧ locale e = loc') →
  getTranslation (addTranslation loc val ctx pref now g) loc'
  = getTranslation g loc'.
Proof.
  intros Hne (e & He & Hloc).
  unfold getTranslation, addTranslation. simpl. unfold addTranslation_list.
  set (kept := List.filter (λ t, negb (locale t === loc)) (translations g)).
  destruct (List.find (λ t, locale t === loc') (translations g))
    as [x|] eqn:Hfind.
  2:{ apply find_none_inv in Hfind. rewrite Forall_forall in Hfind.
      specialize (Hfind e He). apply String.eqb_neq in Hfind. done. }
  assert (Hkept : ∀ new, List.find (λ t, locale t === loc') (kept ++ [new])
                         = Some x).
  { intros new. apply find_app_found. unfold kept.
    rewrite find_filter_implied; [done|].
    intros y Hy%String.eqb_eq. apply negb_true_iff, String.eqb_neq.
    congruence. }
  destruct pref as [[|]|]; simpl; [|by rewrite Hkept..].
  rewrite find_map by (intros y; by rewrite unmark_locale).
  rewrite Hkept. simpl. apply unmark_value.
Qed.

Lemma addTranslation_keeps_other_locales_witness :
  getTranslation (addTranslation "es" "C" None (Some true) 7
                    Sample.example_term) "fr" = "A".
Proof.
  rewrite (addTranslation_keeps_other_locales Sample.example_term
             "es" "C" None (Some true) 7 "fr").
  - reflexivity.
  - discriminate.
  - exists (mkTranslation "fr" "A" "" false). split; [by left|reflexivity].
Defined.

(** X19. A translation added as preferred becomes the fallback: for every
    other locale that has no entry of its own, [getTranslation] returns the
    value of the entry just added. *)
Theorem addTranslation_preferred_is_fallback g loc val ctx now loc' :
  loc' ≠ loc →
  (∀ e, e ∈ translations g → locale e ≠ loc') →
  getTranslation (addTranslation loc val ctx (Some true) now g) loc' = val.
Proof.
  intros Hne Hnone.
  unfold getTranslation, addTranslation. simpl. unfold addTranslation_list.
  set (kept := List.filter (λ t, negb (locale t === loc)) (translations g)).
  set (new := mkTranslation loc val (default "" ctx) true).
  rewrite find_none.
  - rewrite (find_first (λ t, isPreferred t) _
               (map (unmark_unless loc) kept) new []); [done| |done|].
    + rewrite map_app. simpl. unfold new. by rewrite unmark_same_locale.
    + apply Forall_forall. intros y (x & -> & Hx)%list_elem_of_fmap.
      unfold unmark_unless.
      pose proof (kept_no_locale loc (translations g)) as Hk.
      rewrite Forall_forall in Hk. by rewrite (Hk x Hx).
  - apply Forall_forall. intros y (x & -> & Hx)%list_elem_of_fmap.
    rewrite unmark_locale. apply String.eqb_neq.
    apply elem_of_app in Hx as [Hx|Hx].
    + apply elem_of_filter_bool in Hx as [Hx _]. by apply Hnone.
    + apply list_elem_of_singleton in Hx as ->. simpl. congruence.
Qed.

Lemma addTranslation_preferred_is_fallback_witness :
  getTranslation (addTranslation "de" "C" None (Some true) 7
                    Sample.example_term) "it" = "C".
Proof.
  apply (addTranslation_preferred_is_fallback Sample.example_term
           "de" "C" None 7 "it").
  - discriminate.
  - intros e He. simpl in He.
    repeat (apply elem_of_cons in He as [->|He]; [discriminate|]).
    by apply elem_of_nil in He.
Defined.

Lemma js_succ_below n : (N.of_nat n < 2 ^ 53)%N → js_succ n = n + 1.
Proof.
  intros H. unfold js_succ. apply N.ltb_lt in H. by rewrite H.
Qed.

Lemma call_usageCount m now g :
  (N.of_nat (usageCount g) < 2 ^ 53)%N ∨ is_increment m = false →
  usageCount (call m now g)
  = usageCount g + (if is_increment m then 1 else 0).
Proof.
  destruct m; cbn [call is_increment]; intros [H|H]; try done.
  unfold incrementUsage, pre_save. cbn [usageCount]. by apply js_succ_below.
Qed.

(** X20. Usage counting is exact as long as the count stays within
    2^53: after any sequence of [addTranslation] and [incrementUsage]
    calls for which the count at the start plus the number of
    [incrementUsage] calls is at most 2^53, [usageCount] is what it was
    plus the number of [incrementUsage] calls. After any sequence the term
    is the same, and when the sequence holds no [addTranslation] every
    locale resolves as before. *)
Theorem usage_counts_increments (calls : list (method * nat)) g :
  let g' := foldl (λ acc mn, call mn.1 mn.2 acc) g calls in
  let increments :=
    List.length (List.filter (λ mn, is_increment mn.1) calls) in
  ((N.of_nat (usageCount g) + N.of_nat increments ≤ 2 ^ 53)%N →
   usageCount g' = usageCount g + increments)
  ∧ term g' = term g
  ∧ (Forall (λ mn, is_increment mn.1 = true) calls →
     ∀ loc, getTranslation g' loc = getTranslation g loc).
Proof.
  simpl. revert g. induction calls as [|[m now] calls IH]; intros g.
  - split_and!; [simpl; lia|done|done].
  - change (foldl (λ acc mn, call mn.1 mn.2 acc) g ((m, now) :: calls))
      with (foldl (λ acc mn, call mn.1 mn.2 acc) (call m now g) calls).
    destruct (IH (call m now g)) as (Hcount & Hterm & Hres). split_and!.
    + set (B := (2 ^ 53)%N) in *. cbn [List.filter fst]. intros Hle.
      assert (Hstep : usageCount (call m now g)
                      = usageCount g + (if is_increment m then 1 else 0)).
      { apply call_usageCount. fold B.
        destruct (is_increment m); [left|by right].
        cbn [List.length] in Hle. lia. }
      rewrite Hcount, Hstep.
      * destruct (is_increment m); cbn [List.length]; lia.
      * rewrite Hstep. destruct (is_increment m); cbn [List.length] in Hle; lia.
    + rewrite Hterm. by destruct m.
    + intros Hall loc. inversion Hall as [|? ? Hm Hrest]; subst.
      rewrite Hres by done. by destruct m.
Qed.

Lemma usage_counts_increments_witness :
  usageCount (call IncrementUsage 3
                (call (AddTranslation "de" "C" None None) 2
                   (call IncrementUsage 1 Sample.example_term))) = 2
  ∧ getTranslation (call IncrementUsage 3
                      (call IncrementUsage 1 Sample.example_term)) "de" = "B".
Proof.
  split.
  - apply (proj1 (usage_counts_increments
                    [(IncrementUsage, 1);
                     (AddTranslation "de" "C" None None, 2);
                     (IncrementUsage, 3)] Sample.example_term)).
    vm_compute. discriminate.
  - rewrite (proj2 (proj2 (usage_counts_increments
                             [(IncrementUsage, 1); (IncrementUsage, 3)]
                             Sample.example_term))).
    + reflexivity.
    + repeat constructor.
Defined.

(** At 2^53 the count stops: [incrementUsage] leaves it unchanged. *)
Example incrementUsage_saturates now g :
  N.of_nat (usageCount g) = (2 ^ 53)%N →
  usageCount (incrementUsage now g) = usageCount g.
Proof.
  intros H. unfold incrementUsage, pre_save. cbn [usageCount].
  unfold js_succ. by rewrite H.
Qed.

End GlossaryMethods.

Section GlossaryListing.
Import Glossary GlossaryRoutes.
Implicit Types (g : Glossary.t) (db : list Glossary.t).

#[local] Instance listing_order_total : Total listing_order.
Proof.
  intros a b. unfold listing_order.
  destruct (lt_eq_lt_dec (usageCount a) (usageCount b)) as [[Hlt|Heq]|Hgt].
  - right. by left.
  - destruct (String.leb_total (term a) (term b)) as [H|H].
    + left. right. split; [done|]. by apply Is_true_true.
    + right. right. split; [done|]. by apply Is_true_true.
  - left. by left.
Qed.

#[local] Instance by_usage_trans :
  Transitive (λ a b : Glossary.t, usageCount b ≤ usageCount a).
Proof. intros a b c ? ?. lia. Qed.

Lemma StronglySorted_take {A} (R : relation A) n (l : list A) :
  StronglySorted R l → StronglySorted R (take n l).
Proof.
  intros Hl. revert n. induction Hl as [|x l Hl IH Hx]; intros [|n]; simpl;
    constructor; [by apply IH|by apply Forall_take].
Qed.

Lemma StronglySorted_drop {A} (R : relation A) n (l : list A) :
  StronglySorted R l → StronglySorted R (drop n l).
Proof.
  revert l. induction n as [|n IH]; intros l Hl; [done|].
  destruct l as [|x l]; [done|]. simpl. apply IH. by inversion Hl.
Qed.

Lemma limit_sublist {A} n (l : list A) : limit_ n l `sublist_of` l.
Proof. unfold limit_. destruct (n =? 0); [done|apply sublist_take]. Qed.

Lemma listing_elem tenantId_ category_ limit offset db g :
  g ∈ limit_ limit
        (drop offset
           (merge_sort listing_order
              (List.filter (listing_filter tenantId_ category_) db))) →
  g ∈ db ∧ listing_filter tenantId_ category_ g = true.
Proof.
  intros Hg. apply elem_of_filter_bool.
  rewrite <- (merge_sort_Permutation listing_order).
  eapply elem_of_sublist; [exact Hg|].
  etrans; [apply limit_sublist|apply sublist_drop].
Qed.

Lemma listing_sorted tenantId_ category_ db :
  StronglySorted (λ a b, usageCount b ≤ usageCount a)
    (merge_sort listing_order
       (List.filter (listing_filter tenantId_ category_) db)).
Proof.
  apply Sorted_StronglySorted; [apply _|].
  rewrite <- (list_fmap_id (merge_sort _ _)).
  eapply (Sorted_fmap id listing_order); [|apply Sorted_merge_sort; apply _].
  intros a b [Hlt|[Heq _]]; simpl; lia.
Qed.

(** X21. Every row of the glossary listing describes an active term of
    the requested tenant, of the requested category when a non-empty one is
    given, with the translation [getTranslation] resolves for the requested
    locale (default [en]); the rows come in non-increasing order of
    [usageCount]; and a non-zero [limit] bounds their number. *)
Theorem getGlossary_rows tenantId_ locale_ category_ limit offset db :
  let rows := getGlossary tenantId_ locale_ category_ limit offset db in
  (∀ r, r ∈ rows →
     ∃ g, g ∈ db ∧ tenantId g = tenantId_ ∧ isActive g = true
          ∧ (∀ c, category_ = Some c → c ≠ "" → category g = c)
          ∧ r_term r = term g ∧ r_usageCount r = usageCount g
          ∧ r_category r = category g
          ∧ r_translation r = getTranslation g (default "en" locale_))
  ∧ StronglySorted (λ r1 r2, r_usageCount r2 ≤ r_usageCount r1) rows
  ∧ (default 100 limit ≠ 0 → List.length rows ≤ default 100 limit).
Proof.
  simpl. unfold getGlossary. split_and!.
  - intros r (g & -> & Hg)%list_elem_of_fmap.
    apply listing_elem in Hg as [Hg Hf]. exists g.
    unfold listing_filter in Hf. rewrite !andb_true_iff in Hf.
    destruct Hf as [[Ht%String.eqb_eq Hon] Hcat].
    split_and!; try done.
    intros c -> Hc. apply String.eqb_neq in Hc. rewrite Hc in Hcat.
    by apply String.eqb_eq.
  - eapply (StronglySorted_fmap _ (λ a b, usageCount b ≤ usageCount a));
      [done|].
    unfold limit_. destruct (default 100 limit =? 0).
    + apply StronglySorted_drop, listing_sorted.
    + apply StronglySorted_take, StronglySorted_drop, listing_sorted.
  - intros Hlim. rewrite length_map. unfold limit_.
    apply Nat.eqb_neq in Hlim. rewrite Hlim. rewrite length_take. lia.
Qed.

Lemma getGlossary_rows_witness :
  map r_term (getGlossary "t1" (Some "fr") None (Some 2) None
                Sample.glossary_db)
  = ["cart"; "basket"]
  ∧ List.length (getGlossary "t1" (Some "fr") None (Some 2) None
                   Sample.glossary_db) ≤ 2.
Proof.
  split; [vm_compute; reflexivity|].
  apply (proj2 (proj2 (getGlossary_rows "t1" (Some "fr") None (Some 2) None
                         Sample.glossary_db))).
  discriminate.
Defined.

(** X22. Consecutive pages of the glossary listing join up: a page of [n]
    rows from offset [o] followed by a page of [m] rows from offset
    [o + n] is the page of [n + m] rows from offset [o] (for non-zero page
    sizes; a page size of 0 lifts the limit). *)
Theorem getGlossary_pages tenantId_ locale_ category_ n m o db :
  n ≠ 0 → m ≠ 0 →
  getGlossary tenantId_ locale_ category_ (Some n) (Some o) db
  ++ getGlossary tenantId_ locale_ category_ (Some m) (Some (o + n)) db
  = getGlossary tenantId_ locale_ category_ (Some (n + m)) (Some o) db.
Proof.
  intros Hn Hm. unfold getGlossary, limit_. simpl.
  assert (n + m ≠ 0) as Hnm by lia.
  apply Nat.eqb_neq in Hn, Hm, Hnm. rewrite Hn, Hm, Hnm.
  rewrite <- map_app. f_equal.
  rewrite <- (drop_drop _ n o). apply take_take_drop.
Qed.

Lemma getGlossary_pages_witness :
  getGlossary "t1" None None (Some 1) (Some 0) Sample.glossary_db
  ++ getGlossary "t1" None None (Some 2) (Some 1) Sample.glossary_db
  = getGlossary "t1" None None (Some 3) (Some 0) Sample.glossary_db.
Proof.
  apply (getGlossary_pages "t1" None None 1 2 0 Sample.glossary_db);
    discriminate.
Defined.

End GlossaryListing.

(* ===================================================================== *)
(** * Reading entries, and the path from upsert to a served bundle *)
(* ===================================================================== *)

Section EndToEnd.
Import Translation Routes.
Implicit Types (d : t) (db : list t).

(** X23. Under the unique index, [getEntry] has an answer for a locale
    exactly when the locale is not the property name [__proto__], was
    requested, and the record of the triple exists and is active; the
    answer is the view of that record. *)
Theorem getEntry_exact ns k (localeArray : list string) db l e :
  unique_index db →
  (getEntry ns k localeArray db !! l = Some e
   ↔ l ≠ "__proto__" ∧ l ∈ localeArray
     ∧ ∃ d, d ∈ db ∧ ident d = (ns, k, l) ∧ isActive d = true ∧ e = view d).
Proof.
  intros Hdb. split.
  - unfold getEntry.
    intros [(x & Hx & Hl & Hp & ->)|He]%foldl_ins_Some_inv;
      [|by rewrite lookup_empty in He].
    apply getEntry_sorted_elem in Hx as [Hx Hf].
    apply getEntry_filter_true in Hf as (Hns & Hk & Hin & Hon).
    split_and!; [done|by rewrite <- Hl|]. exists x. unfold ident.
    split_and!; [done| |done..]. congruence.
  - intros (Hp & Hl & d & Hd & [= Hns Hk Hloc] & Hon & ->). rewrite <- Hloc.
    apply getEntry_lookup_Some; try done; by rewrite Hloc.
Qed.

Lemma getEntry_exact_witness :
  getEntry "ui" "k1" ["en"; "fr"] Sample.published_db !! "en"
  = Some (view Sample.published_doc)
  ∧ getEntry "ui" "k1" ["en"; "fr"] Sample.published_db !! "fr" = None.
Proof.
  split; [|vm_compute; reflexivity].
  apply (proj2 (getEntry_exact "ui" "k1" ["en"; "fr"] Sample.published_db
                  "en" (view Sample.published_doc)
                  ltac:(unfold unique_index; simpl; apply NoDup_singleton))).
  split_and!; [discriminate|by left|]. exists Sample.published_doc.
  split_and!; [by left|reflexivity..].
Defined.

Lemma inb_singleton x y : inb x [y] = (x === y).
Proof. unfold inb. simpl. apply orb_false_r. Qed.

(** X24. [getBundle] for a namespace and a locale returns the rows of
    [getBundles] for that one namespace and that one locale, in the same
    order, without their namespace and locale fields. *)
Theorem getBundle_is_getBundles ns loc st db :
  getBundle ns loc st db
  = map (λ r, mkBundleRow (bs_key r) (bs_value r) (bs_variables r))
      (getBundles [ns] [loc] st db).
Proof.
  unfold getBundle, getBundles. rewrite map_map. simpl.
  f_equal. induction db as [|d db IH]; simpl; [done|].
  unfold getBundle_filter at 1, getBundles_filter at 1.
  rewrite !inb_singleton. by rewrite IH.
Qed.

Lemma run_app trace1 trace2 db :
  run (trace1 ++ trace2) db = run trace2 (run trace1 db).
Proof. unfold run. apply foldl_app. Qed.

(** X25. What is upserted and then published is served: after any
    sequence of write requests, an upsert of [(namespace, key, locale)]
    with a value followed by a publish of that key makes GET /api/i18n, for
    that namespace and locale and the default status, answer with the value
    under the key (for a namespace and a locale without commas, which the
    query string cannot carry otherwise, and for a namespace, a locale and
    a key other than the property name [__proto__]). *)
Theorem upsert_publish_served trace ns k l v ctx vars by_ t1 publishedBy t2 :
  comma_free ns → comma_free l →
  ns ≠ "__proto__" → l ≠ "__proto__" → k ≠ "__proto__" →
  let db := run (trace ++ [ (PostKeys ns k [(l, v)] ctx vars by_, t1);
                            (PostPublish ns [k] publishedBy, t2) ]) [] in
  ∃ inner m, getI18n (Some ns) (Some l) None db !! ns = Some inner
             ∧ inner !! l = Some m
             ∧ m !! k = Some v.
Proof.
  intros Hns Hl Hnp Hlp Hkp. simpl. rewrite run_app.
  set (db0 := run trace []).
  assert (Hdb0 : unique_index db0) by (apply run_unique_index; constructor).
  unfold run. simpl. unfold postKeys. simpl.
  set (vars' := default [] vars). set (by' := default "system" by_).
  pose proof (upsert_unique_index ns k l v ctx vars' by' t1 db0 Hdb0) as Hdb1.
  assert (Hact : Forall (λ d, isActive d = true)
                   (upsert ns k l v ctx vars' by' t1 db0).1).
  { eapply grows_active; [apply upsert_grows|].
    apply run_all_active. constructor. }
  destruct (upsert_findOne ns k l v ctx vars' by' t1 db0)
    as (pre & post & Heq & _ & Hid & Hv & Hst & _).
  destruct (upsert ns k l v ctx vars' by' t1 db0) as [db1 d1] eqn:Hup.
  simpl in *.
  assert (Hin1 : d1 ∈ db1).
  { rewrite Heq. apply elem_of_app. right. by left. }
  assert (Hon1 : isActive d1 = true).
  { rewrite Forall_forall in Hact. by apply Hact. }
  injection Hid as Hn Hk Hloc.
  set (db2 := (publish ns [k] publishedBy t2 db1).1).
  assert (Hdb2 : unique_index db2) by (by apply publish_unique_index).
  set (g := λ x, if publish_filter ns [k] x
                 then publish_update (default "system" publishedBy) t2 x
                 else x).
  assert (Hpub : publish_filter ns [k] d1 = true).
  { apply publish_filter_true. split_and!; [done| |by left].
    rewrite Hk. by left. }
  assert (Hin2 : g d1 ∈ db2) by (by apply list_elem_of_fmap_2).
  destruct (getI18n_cell (Some ns) (Some l) None db2 ns l)
    as (inner & Hinner & Hm).
  { simpl. rewrite (split_comma_single ns Hns). by left. }
  { done. }
  { simpl. rewrite (split_comma_single l Hl). by left. }
  { done. }
  eexists inner, _. split_and!; [exact Hinner|exact Hm|].
  simpl. apply bundle_cell_lookup; [done| | |].
  { rewrite (split_comma_single ns Hns). by left. }
  { rewrite (split_comma_single l Hl). by left. }
  split; [done|].
  exists (g d1). unfold g. rewrite Hpub. unfold ident. simpl.
  split_and!; [|congruence|done..].
  fold (g d1) in Hin2 |- *. unfold g in Hin2. by rewrite Hpub in Hin2.
Qed.

Lemma upsert_publish_served_witness :
  ∃ inner m,
    getI18n (Some "ui") (Some "en") None
      (run (Sample.republish_trace
            ++ [ (PostKeys "ui" "k9" [("en", "Nine")] None None None, 5);
                 (PostPublish "ui" ["k9"] None, 6) ]) []) !! "ui" = Some inner
    ∧ inner !! "en" = Some m
    ∧ m !! "k9" = Some "Nine".
Proof.
  apply (upsert_publish_served Sample.republish_trace "ui" "k9" "en" "Nine"
           None None None 5 None 6);
    try discriminate;
    unfold comma_free; simpl; intros H;
    repeat (apply elem_of_cons in H as [H|H]; [discriminate H|]);
    by apply elem_of_nil in H.
Defined.

End EndToEnd.
